(** * go-yamltools: the custom-tag engine and the include loaders

    A shallow embedding of [loaders.go] (package [yamltools]) and the
    properties of the tag-resolution engine and the two include resolvers.

    The Go code works on [*yaml.Node] pointers and overwrites nodes in place
    ([*n = *fragment]).  The embedding therefore keeps an explicit store: a
    finite map from addresses to node cells, with [Content] holding
    addresses, so that sharing and in-place updates are visible.  Recursion
    over a store is not structural, so the recursive functions take fuel;
    the theorems show that on tree-shaped documents enough fuel always
    yields the result.

    The YAML codec, the file system and [filepath.WalkDir] are not code of
    the package.  The first two are interfaces ([Codec], [FileSystem]); the
    walk follows Go's [path/filepath].  [yaml.Unmarshal] calls
    [Fragment.UnmarshalYAML] on the root of the document unless there is
    no document or the root is tagged [!!null]; in both cases the fragment
    can stay nil.  The theorems on the engine hold for
    every resolver that overwrites only the node it is handed ([frames]),
    which both resolvers of the package do ([include_frames],
    [include_dir_named_frames]). *)

From Stdlib Require Import String Ascii.
From stdpp Require Import base option list gmap strings.

Open Scope string_scope.
Open Scope list_scope.
Open Scope nat_scope.
Open Scope stdpp_scope.

(** ** The node model ([gopkg.in/yaml.v3], the fields the package reads) *)

(** [yaml.Kind]: the named constants of the library. *)
Inductive Kind : Type :=
  | DocumentNode
  | SequenceNode
  | MappingNode
  | ScalarNode
  | AliasNode.

#[global] Instance Kind_eq_dec : EqDecision Kind.
Proof. solve_decision. Defined.

(** Addresses of node cells.  A [*yaml.Node] is [None] (nil) or an address. *)
Abbreviation loc := positive.
Abbreviation ptr := (option loc).

(** [yaml.Node], restricted to the fields [Kind], [Tag], [Value] and
    [Content []*Node].  A [Content] slice is a value of the cell: the
    package only ever replaces it as a whole ([*n = ...]). *)
Record Node : Type := mkNode {
  kind : Kind;
  Tag : string;
  Value : string;
  Content : list ptr
}.

#[global] Instance Node_eq_dec : EqDecision Node.
Proof. solve_decision. Defined.

(** ** Program states and outcomes *)

(** The store of node cells together with whatever else a resolver may act
    on (a log, a counter, ...). *)
Record State (W : Type) : Type := mkState {
  heap : gmap loc Node;
  world : W
}.
Arguments mkState {W} _ _.
Arguments heap {W} _.
Arguments world {W} _.

(** A Go call returns normally, panics (nil dereference), or, in the model,
    runs out of fuel. *)
Inductive exec (W A : Type) : Type :=
  | Normal (a : A) (σ : State W)
  | Panic (σ : State W)
  | Timeout.
Arguments Normal {W A} _ _.
Arguments Panic {W A} _.
Arguments Timeout {W A}.

Definition M (W A : Type) : Type := State W → exec W A.

Definition ret {W A} (a : A) : M W A := λ σ, Normal a σ.

Definition bind {W A B} (m : M W A) (k : A → M W B) : M W B :=
  λ σ, match m σ with
       | Normal a σ' => k a σ'
       | Panic σ' => Panic σ'
       | Timeout => Timeout
       end.

Definition panic {W A} : M W A := λ σ, Panic σ.
Definition timeout {W A} : M W A := λ _, Timeout.

Notation "'do' x <- m ; k" := (bind m (λ x, k))
  (at level 10, x name, m at level 100, k at level 200).

(** The state an execution ends in, when it has one. *)
Definition final {W A} (r : exec W A) : option (State W) :=
  match r with
  | Normal _ σ => Some σ
  | Panic σ => Some σ
  | Timeout => None
  end.

(** Reading through a pointer: [n.F] panics when [n] is nil.  An address
    without a cell, which a Go program cannot hold, is treated like nil. *)
Definition deref {W} (n : ptr) : M W Node :=
  λ σ, match n with
       | Some l => match heap σ !! l with
                   | Some nd => Normal nd σ
                   | None => Panic σ
                   end
       | None => Panic σ
       end.

Definition load {W A} (f : Node → A) (n : ptr) : M W A :=
  do nd <- deref n; ret (f nd).

(** [*n = nd]. *)
Definition store {W} (n : ptr) (nd : Node) : M W unit :=
  λ σ, match n with
       | Some l => match heap σ !! l with
                   | Some _ => Normal tt (mkState (<[l := nd]> (heap σ)) (world σ))
                   | None => Panic σ
                   end
       | None => Panic σ
       end.

(** [&yaml.Node{...}]: a cell at an address not in use. *)
Definition alloc {W} (nd : Node) : M W ptr :=
  λ σ, let l := fresh (dom (heap σ)) in
       Normal (Some l) (mkState (<[l := nd]> (heap σ)) (world σ)).

(** [s[i]] on a slice. *)
Definition index {W A} (s : list A) (i : nat) : M W A :=
  λ σ, match s !! i with
       | Some x => Normal x σ
       | None => Panic σ
       end.

(** ** The tag-resolution engine *)

Section Engine.
Context {W Err : Type}.

(** Go's [error]: [None] is nil. *)
Definition error : Type := option Err.

(** [type TagProcessor = func(n *yaml.Node) error] *)
Definition TagProcessor : Type := ptr → M W error.

(** [for _, n := range content { err := rec(n); if err != nil { return err } }]
    where [rec] is the recursive call of the enclosing function. *)
Definition range_loop (rec : ptr → M W error) : list ptr → M W error :=
  fix range (cs : list ptr) : M W error :=
    match cs with
    | [] => ret None
    | c :: cs =>
      do err <- rec c;
      match err with
      | Some e => ret (Some e)
      | None => range cs
      end
    end.

(** [HandleCustomTag], with the [for i := 1; i < len(n.Content); i += 2]
    loop as [mapping_loop]; that loop reads [n.Content] again on every
    round, the [range] loop evaluates it once. *)
Fixpoint HandleCustomTag (fuel : nat) (n : ptr) (tag : string)
    (fn : TagProcessor) {struct fuel} : M W error :=
  match fuel with
  | O => timeout
  | S fuel =>
    do nTag <- load Tag n;
    if String.eqb nTag tag then
      do err <- fn n;
      match err with
      | Some e => ret (Some e)
      | None => ret None
      end
    else
      do nKind <- load kind n;
      match nKind with
      | SequenceNode =>
        do content <- load Content n;
        range_loop (λ c, HandleCustomTag fuel c tag fn) content
      | MappingNode => mapping_loop fuel n tag fn 1
      | _ => ret None
      end
  end
with mapping_loop (fuel : nat) (n : ptr) (tag : string)
    (fn : TagProcessor) (i : nat) {struct fuel} : M W error :=
  match fuel with
  | O => timeout
  | S fuel =>
    do content <- load Content n;
    if i <? length content then
      do c <- index content i;
      do err <- HandleCustomTag fuel c tag fn;
      match err with
      | Some e => ret (Some e)
      | None => mapping_loop fuel n tag fn (i + 2)
      end
    else ret None
  end.

End Engine.

(** ** The collaborators: file system, path functions and YAML codec *)

(** Errors: the two sentinel values [filepath.WalkDir] looks for and every
    other error value. *)
Inductive fs_error (E : Type) : Type :=
  | SkipDir
  | SkipAll
  | Other (e : E).
Arguments SkipDir {E}.
Arguments SkipAll {E}.
Arguments Other {E} _.

(** [err != nil] *)
Definition not_nil {A} (err : option A) : bool :=
  match err with Some _ => true | None => false end.

Definition is_SkipDir {E} (err : option (fs_error E)) : bool :=
  match err with Some SkipDir => true | _ => false end.

Definition is_SkipAll {E} (err : option (fs_error E)) : bool :=
  match err with Some SkipAll => true | _ => false end.

(** [fs.DirEntry], the two methods the walk uses. *)
Record DirEntry : Type := mkDirEntry {
  Name : string;
  IsDir : bool
}.

(** What the package asks of [os] and [path/filepath].  The file system is
    only read, and is taken not to change during a call.  Its errors are
    ordinary error values [E], never the sentinels of the walk. *)
Class FileSystem (E : Type) : Type := {
  ReadFile : string → E + string;
  Lstat : string → E + DirEntry;
  (** [os.ReadDir] may return entries together with an error. *)
  ReadDir : string → list DirEntry * option E;
  Join : string → string → string;
  Base : string → string;
  (** the target operating system is Windows *)
  windows : bool
}.

(** [os.IsPathSeparator]: ['/'], and on Windows also the backslash. *)
Definition IsPathSeparator {E} `{!FileSystem E} (c : ascii) : bool :=
  Ascii.eqb c "/"%char || (windows && Ascii.eqb c (ascii_of_nat 92)).

#[local] Set Warnings "-register-all".

(** A document as the parser produces it, before it is placed in the store. *)
Inductive ytree : Type :=
  | YNode (k : Kind) (tag value : string) (kids : list ytree).

Definition ytag (t : ytree) : string :=
  match t with YNode _ tag _ _ => tag end.

(** What parsing a byte string gives: an error, no document at all (the
    stream ends before any document starts), or the root content node. *)
Inductive parsed (E : Type) : Type :=
  | ParseError (e : E)
  | NoDocument
  | Document (t : ytree).
Arguments ParseError {E} _.
Arguments NoDocument {E}.
Arguments Document {E} _.

(** What the package asks of [gopkg.in/yaml.v3].  [parse] is the parser.
    [decode_struct] is the decoder on a node for which it looks for no
    [Unmarshaler]: it then decodes the node into the fields of the
    [Fragment] itself, which gives an error, or no error together with the
    document [Content] then points to, if any.  (For a null scalar such as
    [~] no field is set and there is no error.) *)
Class Codec (E : Type) : Type := {
  parse : string → parsed E;
  decode_struct : ytree → E + option ytree
}.

(** [nullTag] of the library; the tag of a node the parser built is
    already in short form, so that [Node.ShortTag] is the field [Tag]. *)
Definition nullTag : string := "!!null".

(** Running a computation on each element of a list, left to right. *)
Definition mapM {W A B} (f : A → M W B) : list A → M W (list B) :=
  fix go (l : list A) : M W (list B) :=
    match l with
    | [] => ret []
    | x :: l =>
      do y <- f x;
      do ys <- go l;
      ret (y :: ys)
    end.

(** The parser builds the nodes of a document in fresh cells. *)
Fixpoint alloc_tree {W} (t : ytree) : M W ptr :=
  match t with
  | YNode k tag value kids =>
    do cs <- mapM alloc_tree kids;
    alloc (mkNode k tag value cs)
  end.

(** ** [Fragment] and the loaders *)

(** [type Fragment struct { Content *yaml.Node }] *)
Record Fragment : Type := mkFragment {
  Fragment_Content : ptr
}.

Section Loaders.
Context {W E : Type} `{!FileSystem E, !Codec E}.

Abbreviation error := (@error (fs_error E)).

(** [func (f *Fragment) UnmarshalYAML(n *yaml.Node) error] *)
Definition UnmarshalYAML (f : Fragment) (n : ptr) : Fragment * error :=
  (mkFragment n, None).

(** [yaml.Unmarshal(data, &f)]: parses, and hands the root content node
    to [f.UnmarshalYAML] when the input holds a document whose root is
    not tagged [!!null].  For a root tagged [!!null] the decoder does not
    call [UnmarshalYAML] ([decoder.prepare] returns at once) and decodes
    the node into the struct instead.  Cells that no pointer reaches are
    not kept in the store. *)
Definition Unmarshal (data : string) (f : Fragment) : M W (Fragment * error) :=
  match parse data with
  | ParseError e => ret (f, Some (Other e))
  | NoDocument => ret (f, None)
  | Document t =>
    if String.eqb (ytag t) nullTag then
      match decode_struct t with
      | inl e => ret (f, Some (Other e))
      | inr None => ret (f, None)
      | inr (Some c) =>
        do n <- alloc_tree c;
        ret (mkFragment n, None)
      end
    else
      do n <- alloc_tree t;
      ret (UnmarshalYAML f n)
  end.

Definition LoadFileFragment (path : string) : M W (ptr * error) :=
  match ReadFile path with
  | inl e => ret (None, Some (Other e))
  | inr data =>
    let f := mkFragment None in
    do r <- Unmarshal data f;
    match snd r with
    | Some e => ret (None, Some e)
    | None => ret (Fragment_Content (fst r), None)
    end
  end.

(** The function literal of [LoadIncludeTag]. *)
Definition include : @TagProcessor W (fs_error E) :=
  λ n,
    do nValue <- load Value n;
    do r <- LoadFileFragment nValue;
    match snd r with
    | Some e => ret (Some e)
    | None =>
      (* *n = *fragment *)
      do nd <- deref (fst r);
      do _ <- store n nd;
      ret None
    end.

Definition LoadIncludeTag (fuel : nat) (n : ptr) : M W error :=
  HandleCustomTag fuel n "!include" include.

(** [filepath.WalkDir] and its helper [walkDir] (Go's [path/filepath],
    as of Go 1.20): the callback is called on every entry; a directory
    is read and walked into unless the callback returned an error for
    it. *)
Definition WalkDirFunc : Type := string → option DirEntry → error → M W error.

Fixpoint walkDir (fuel : nat) (path : string) (d : DirEntry)
    (walkDirFn : WalkDirFunc) {struct fuel} : M W error :=
  match fuel with
  | O => timeout
  | S fuel =>
    do err <- walkDirFn path (Some d) None;
    if not_nil err || negb (IsDir d) then
      if is_SkipDir err && IsDir d then ret None else ret err
    else
      let dirs := fst (ReadDir path) in
      do stop <-
        match snd (ReadDir path) with
        | Some e =>
          (* second call, to report the ReadDir error *)
          do err <- walkDirFn path (Some d) (Some (Other e));
          if not_nil err then
            if is_SkipDir err && IsDir d then ret (Some None)
            else ret (Some err)
          else ret None
        | None => ret None
        end;
      match stop with
      | Some r => ret r
      | None =>
        (fix range (ds : list DirEntry) : M W error :=
           match ds with
           | [] => ret None
           | d1 :: ds =>
             let path1 := Join path (Name d1) in
             do err <- walkDir fuel path1 d1 walkDirFn;
             if not_nil err then
               if is_SkipDir err then ret None (* break *)
               else ret err
             else range ds
           end) dirs
      end
  end.

Definition WalkDir (fuel : nat) (root : string) (fn : WalkDirFunc) : M W error :=
  do err <-
    match Lstat root with
    | inl e => fn root None (Some (Other e))
    | inr info => walkDir fuel root info fn
    end;
  if is_SkipDir err || is_SkipAll err then ret None else ret err.

(** [fileNameWithoutExt]; the loop index [i] is [k - 1]. *)
Fixpoint fileNameWithoutExt_from (path : string) (k : nat) : string :=
  match k with
  | O => EmptyString
  | S i =>
    match String.get i path with
    | Some c =>
      if IsPathSeparator c then EmptyString
      else if Ascii.eqb c "."%char then String.substring 0 i path
      else fileNameWithoutExt_from path i
    | None => EmptyString
    end
  end.

Definition fileNameWithoutExt (path : string) : string :=
  fileNameWithoutExt_from path (String.length path).

End Loaders.

(** A variable captured by a closure: the body runs with the variable added
    to the state, and its last value is handed back. *)
Definition with_local {W L A} (init : L) (m : M (W * L) A) : M W (A * L) :=
  λ σ, match m (mkState (heap σ) (world σ, init)) with
       | Normal a σ' => Normal (a, snd (world σ')) (mkState (heap σ') (fst (world σ')))
       | Panic σ' => Panic (mkState (heap σ') (fst (world σ')))
       | Timeout => Timeout
       end.

Definition get_local {W L} : M (W * L) L :=
  λ σ, Normal (snd (world σ)) σ.

Definition set_local {W L} (x : L) : M (W * L) unit :=
  λ σ, Normal tt (mkState (heap σ) (fst (world σ), x)).

Section DirNamed.
Context {W E : Type} `{!FileSystem E, !Codec E}.

(** The function literal passed to [filepath.WalkDir]; [content] is the
    captured slice, [n] the captured tag node. *)
Definition include_dir_walk_fn (n : ptr) : @WalkDirFunc (W * list ptr) E :=
  λ path entry err,
    do nValue <- load Value n;
    if String.eqb path nValue then ret None
    else
      match entry with
      | None => panic
      | Some entry =>
        if IsDir entry then ret None
        else
          do r <- LoadFileFragment path;
          match snd r with
          | Some e => ret (Some e)
          | None =>
            do key <- alloc (mkNode ScalarNode "!!str"
                               (fileNameWithoutExt (Base path)) []);
            do content <- get_local;
            do _ <- set_local (content ++ [key; fst r]);
            ret None
          end
      end.

(** The resolver of [LoadIncludeDirNamedTag]. *)
Definition include_dir_named (fuel : nat) : @TagProcessor W (fs_error E) :=
  λ n,
    do nValue <- load Value n;
    do r <- with_local [] (WalkDir fuel nValue (include_dir_walk_fn n));
    match fst r with
    | Some e => ret (Some e)
    | None =>
      do _ <- store n (mkNode MappingNode "!!map" EmptyString (snd r));
      ret None
    end.

Definition LoadIncludeDirNamedTag (fuel : nat) (n : ptr) : M W (@error (fs_error E)) :=
  HandleCustomTag fuel n "!include_dir_named" (include_dir_named fuel).

End DirNamed.

(** ** Documents as trees in the store *)

(** A tree-shaped document: every node with its address. *)
Inductive tree : Type :=
  | T (l : loc) (k : Kind) (tag value : string) (kids : list tree).

Definition root (t : tree) : loc :=
  match t with T l _ _ _ _ => l end.

Definition tree_kind (t : tree) : Kind :=
  match t with T _ k _ _ _ => k end.

Definition tree_tag (t : tree) : string :=
  match t with T _ _ tag _ _ => tag end.

Definition children (t : tree) : list tree :=
  match t with T _ _ _ _ kids => kids end.

(** The cell a node of the tree occupies. *)
Definition cell (t : tree) : Node :=
  match t with
  | T _ k tag value kids => mkNode k tag value (map (λ s, Some (root s)) kids)
  end.

(** All nodes in document order (depth-first, parents before children,
    children left to right). *)
Fixpoint nodes (t : tree) : list tree :=
  match t with
  | T _ _ _ _ kids => t :: flat_map nodes kids
  end.

Definition locs (t : tree) : list loc := map root (nodes t).

(** The store holds the document [t]. *)
Definition represents (h : gmap loc Node) (t : tree) : Prop :=
  Forall (λ s, h !! root s = Some (cell s)) (nodes t).

(** No cell is shared between two positions of the document. *)
Definition unshared (t : tree) : Prop := NoDup (locs t).

Section OnValues.
Context {A B : Type} (f : A → list B).

(** The value positions (odd indices) of a mapping's children. *)
Fixpoint values (l : list A) : list A :=
  match l with
  | _ :: v :: rest => v :: values rest
  | _ => []
  end.

(** The key positions (even indices). *)
Fixpoint keys (l : list A) : list A :=
  match l with
  | [] => []
  | [k] => [k]
  | k :: _ :: rest => k :: keys rest
  end.

Fixpoint on_values (l : list A) : list B :=
  match l with
  | _ :: v :: rest => f v ++ on_values rest
  | _ => []
  end.
End OnValues.

(** The nodes the engine hands to the resolver, read off the document:
    a node whose tag matches is a target and is not entered; a sequence is
    entered through all children, a mapping through its values. *)
Fixpoint targets (tag : string) (t : tree) : list loc :=
  match t with
  | T l k tg _ kids =>
    if String.eqb tg tag then [l]
    else match k with
         | SequenceNode => flat_map (targets tag) kids
         | MappingNode => on_values (targets tag) kids
         | _ => []
         end
  end.

(** Nodes in key position of a mapping, with all their descendants. *)
Fixpoint key_region (t : tree) : list loc :=
  match t with
  | T _ k _ _ kids =>
    match k with
    | MappingNode => flat_map locs (keys kids)
    | _ => []
    end ++ flat_map key_region kids
  end.

(** Fuel that suffices for a document. *)
Fixpoint cost (t : tree) : nat :=
  match t with
  | T _ _ _ _ kids => 2 + list_sum (map (λ s, S (cost s)) kids)
  end.

(** The part of [cost] spent on the children. *)
Definition pair_cost (ks : list tree) : nat :=
  list_sum (map (λ s, S (cost s)) ks).

(** The document a tree in the store holds, without the addresses. *)
Fixpoint shape_of (t : tree) : ytree :=
  match t with
  | T _ k tag value kids => YNode k tag value (map shape_of kids)
  end.

(** The store that holds exactly the nodes of [t]. *)
Definition store_of (t : tree) : gmap loc Node :=
  list_to_map (map (λ s, (root s, cell s)) (nodes t)).

(** ** Resolver calls: what is assumed and what is observed *)

Section Resolvers.
Context {W Err : Type}.

(** Calling the resolver on each address of a list, stopping at the
    first error. *)
Definition resolve_each (fn : @TagProcessor W Err) (ls : list loc)
    : M W (@error Err) :=
  range_loop fn (map Some ls).

(** The resolver leaves alone every existing cell of [L] other than the
    one it is called on, when called on an address of [ls]: it overwrites
    the node it is handed and may build new cells. *)
Definition frames (fn : @TagProcessor W Err) (ls L : list loc) : Prop :=
  ∀ l σ σ' l',
    l ∈ ls → final (fn (Some l) σ) = Some σ' →
    l' ∈ L → l' ≠ l → is_Some (heap σ !! l') →
    heap σ' !! l' = heap σ !! l'.

(** The resolver always returns or panics. *)
Definition total (fn : @TagProcessor W Err) : Prop :=
  ∀ n σ, is_Some (final (fn n σ)).

(** The addresses of [ls] that [resolve_each] gets to: all up to and
    including the first call that does not return nil. *)
Fixpoint called (fn : @TagProcessor W Err) (ls : list loc) (σ : State W)
    : list loc :=
  match ls with
  | [] => []
  | l :: ls =>
    l :: match fn (Some l) σ with
         | Normal None σ' => called fn ls σ'
         | _ => []
         end
  end.

(** A state with a log of the nodes the resolver was called on. *)
Definition with_log (σ : State W) (log : list ptr) : State (W * list ptr) :=
  mkState (heap σ) (world σ, log).

Definition calls (s : State (W * list ptr)) : list ptr := snd (world s).

Definition erase (s : State (W * list ptr)) : State W :=
  mkState (heap s) (fst (world s)).

(** The resolver [fn], recording each node it is invoked on. *)
Definition logging (fn : @TagProcessor W Err) : @TagProcessor (W * list ptr) Err :=
  λ n s,
    match fn n (erase s) with
    | Normal e σ' => Normal e (with_log σ' (calls s ++ [n]))
    | Panic σ' => Panic (with_log σ' (calls s ++ [n]))
    | Timeout => Timeout
    end.
End Resolvers.

(** However the computation ends, every cell it started with is still
    there, unchanged. *)
Definition extends {W A} (m : M W A) : Prop :=
  ∀ σ σ', final (m σ) = Some σ' → heap σ ⊆ heap σ'.

Section Replay.
Context {W Err : Type}.

(** The state after calling the resolver on each node of a list, whatever
    the calls return. *)
Fixpoint replay (fn : @TagProcessor W Err) (ns : list ptr) (σ : State W)
    : option (State W) :=
  match ns with
  | [] => Some σ
  | n :: ns =>
    match final (fn n σ) with
    | Some σ' => replay fn ns σ'
    | None => None
    end
  end.

(** All that the computation does to the state is to call the logged
    resolver. *)
Definition only_calls (fn : @TagProcessor W Err) {A} (m : M (W * list ptr) A) : Prop :=
  ∀ s s', final (m s) = Some s' →
    ∃ ns, calls s' = calls s ++ ns ∧ replay fn ns (erase s) = Some (erase s').
End Replay.

(** What building the document [t] in the store gives: new cells only,
    holding [t] as an unshared tree at [l]. *)
Definition built {W} (σ : State W) (t : ytree) (l : loc) (σ' : State W) : Prop :=
  heap σ ⊆ heap σ' ∧ world σ' = world σ ∧
  ∃ tt, root tt = l ∧ shape_of tt = t ∧ represents (heap σ') tt ∧
        unshared tt ∧ (∀ x, x ∈ locs tt → heap σ !! x = None).

(** ** The directory walk, read off the file system *)

Section WalkSpec.
Context {W E : Type} `{!FileSystem E, !Codec E}.

(** What the walk callback does for a file it does not skip. *)
Definition add_file (path : string) : M (W * list ptr) (@error (fs_error E)) :=
  do r <- LoadFileFragment path;
  match snd r with
  | Some e => ret (Some e)
  | None =>
    do key <- alloc (mkNode ScalarNode "!!str"
                       (fileNameWithoutExt (Base path)) []);
    do content <- get_local;
    do _ <- set_local (content ++ [key; fst r]);
    ret None
  end.

Fixpoint add_files (ps : list string) : M (W * list ptr) (@error (fs_error E)) :=
  match ps with
  | [] => ret None
  | p :: ps =>
    do err <- add_file p;
    match err with
    | Some e => ret (Some e)
    | None => add_files ps
    end
  end.

(** The files below [path] in the order of the walk: those of a
    directory are the files of its entries, sub-directories included. *)
Fixpoint walk_files (root : string) (fuel : nat) (path : string)
    (d : DirEntry) : list string :=
  match fuel with
  | O => []
  | S fuel =>
    if IsDir d then
      flat_map (λ d1, walk_files root fuel (Join path (Name d1)) d1)
               (fst (ReadDir path))
    else if String.eqb path root then [] else [path]
  end.

(** The fuel reaches every entry below [path]. *)
Fixpoint within (fuel : nat) (path : string) (d : DirEntry) : bool :=
  match fuel with
  | O => false
  | S fuel =>
    if IsDir d then
      forallb (λ d1, within fuel (Join path (Name d1)) d1) (fst (ReadDir path))
    else true
  end.

(** The entry [(p, d')] is [(path, d)] itself or lies below it, at any
    depth, through directories. *)
Inductive reach : string → DirEntry → string → DirEntry → Prop :=
  | reach_here path d : reach path d path d
  | reach_down path d d1 p d' :
      IsDir d = true → d1 ∈ fst (ReadDir path) →
      reach (Join path (Name d1)) d1 p d' →
      reach path d p d'.

(** The regular files located directly in a directory. *)
Definition direct_files (dir : string) : list string :=
  map (λ d, Join dir (Name d))
      (filter (λ d, IsDir d = false) (fst (ReadDir dir))).

(** What [yaml.Unmarshal] makes of the bytes of a file: an error, or the
    document the fragment then points to, if any.  A document whose root
    is tagged [!!null] is not handed to [UnmarshalYAML]. *)
Definition fragment_of (data : string) : E + option ytree :=
  match parse data with
  | ParseError e => inl e
  | NoDocument => inr None
  | Document t =>
    if String.eqb (ytag t) nullTag then decode_struct t else inr (Some t)
  end.

(** The file can be read and its bytes are decoded without error. *)
Definition loads (path : string) : bool :=
  match ReadFile path with
  | inr data => match fragment_of data with inl _ => false | inr _ => true end
  | inl _ => false
  end.

(** The pair of a mapping built for the file [path]: the key cell and
    the fragment, both new with respect to the store [h0]. *)
Definition pair_ok (h0 h : gmap loc Node) (path : string) (kf : loc * ptr) : Prop :=
  h !! kf.1 = Some (mkNode ScalarNode "!!str" (fileNameWithoutExt (Base path)) []) ∧
  h0 !! kf.1 = None ∧
  ∃ data, ReadFile path = inr data ∧
    match fragment_of data with
    | inr (Some t) =>
      ∃ tt, kf.2 = Some (root tt) ∧ shape_of tt = t ∧ represents h tt ∧
            unshared tt ∧ (∀ x, x ∈ locs tt → h0 !! x = None)
    | inr None => kf.2 = None
    | inl _ => False
    end.

(** The children of the mapping built from the pairs. *)
Definition pair_content (pairs : list (loc * ptr)) : list ptr :=
  flat_map (λ kf, [Some kf.1; kf.2]) pairs.

(** Only the regular files located directly in the named directory
    contribute pairs: the mapping that replaces the node [n] has one
    pair for each of them and no other. *)
Definition only_direct_files (fuel : nat) (n : loc) (σ : State W) : Prop :=
  ∀ nd σ' nd',
    heap σ !! n = Some nd →
    LoadIncludeDirNamedTag fuel (Some n) σ = Normal None σ' →
    heap σ' !! n = Some nd' →
    ∃ pairs, Content nd' = pair_content pairs ∧
             Forall2 (pair_ok (heap σ) (heap σ')) (direct_files (Value nd)) pairs.
End WalkSpec.

(** ** [EnsureList] *)

(** Modelled from the spec: [EnsureList], a function of the package whose
    source is not among the files at hand.  The spec: "if already Sequence,
    unchanged; else wrap as single-element Sequence"; the functions of that
    family "return a (possibly newly constructed) node" and do not mutate
    their input.  The wrapper's tag is not fixed by the spec; the standard
    sequence tag is used. *)
Definition EnsureList {W} (n : ptr) : M W ptr :=
  do nKind <- load kind n;
  match nKind with
  | SequenceNode => ret n
  | _ => alloc (mkNode SequenceNode "!!seq" EmptyString [n])
  end.

(** ** A small file system, codec and documents to run the code on *)

Module Demo.

Definition lookup_path {A} (tbl : list (string * A)) (p : string) : option A :=
  snd <$> List.find (λ kv, String.eqb (fst kv) p) tbl.

(** The last element of a slash-separated path. *)
Fixpoint last_element (s acc : string) : string :=
  match s with
  | EmptyString => acc
  | String c s' =>
    if Ascii.eqb c "/"%char then last_element s' EmptyString
    else last_element s' (acc ++ String c EmptyString)%string
  end.

Definition files : list (string * string) :=
  [("one.yaml", "1"); ("two.yaml", "2"); ("empty.yaml", EmptyString);
   ("again.yaml", "!include one.yaml");
   ("pair/a.yaml", "1"); ("pair/b.yaml", "2");
   ("conf/a.yaml", "1"); ("conf/sub/c.yaml", "3");
   ("tools/Makefile", "all")].

Definition dirs : list (string * list DirEntry) :=
  [("pair", [mkDirEntry "a.yaml" false; mkDirEntry "b.yaml" false]);
   ("conf", [mkDirEntry "a.yaml" false; mkDirEntry "sub" true]);
   ("conf/sub", [mkDirEntry "c.yaml" false]);
   ("tools", [mkDirEntry "Makefile" false])].

Definition fs : FileSystem unit := {|
  ReadFile p :=
    match lookup_path files p with Some d => inr d | None => inl tt end;
  Lstat p :=
    match lookup_path dirs p, lookup_path files p with
    | Some _, _ => inr (mkDirEntry (last_element p EmptyString) true)
    | None, Some _ => inr (mkDirEntry (last_element p EmptyString) false)
    | None, None => inl tt
    end;
  ReadDir p :=
    match lookup_path dirs p with
    | Some ds => (ds, None)
    | None => ([], Some tt)
    end;
  Join p name := (p ++ "/" ++ name)%string;
  Base p := last_element p EmptyString;
  windows := false
|}.

Definition is_digit (c : ascii) : bool :=
  (48 <=? nat_of_ascii c) && (nat_of_ascii c <=? 57).

(** A codec for one-line documents: nothing, a null, a tagged include,
    a number or a string.  Decoding a scalar into the struct sets no
    field; other nodes do not fit it. *)
Definition codec : Codec unit := {|
  parse data :=
    if String.eqb data EmptyString then NoDocument
    else if String.eqb data "~" || String.eqb data "null" then
      Document (YNode ScalarNode "!!null" data [])
    else if String.prefix "!include " data then
      Document (YNode ScalarNode "!include"
                  (String.substring 9 (String.length data - 9) data) [])
    else if forallb is_digit (list_ascii_of_string data) then
      Document (YNode ScalarNode "!!int" data [])
    else Document (YNode ScalarNode "!!str" data []);
  decode_struct t :=
    match t with
    | YNode ScalarNode _ _ _ => inr None
    | _ => inl tt
    end
|}.

Definition scalar (l : loc) (tag value : string) : tree :=
  T l ScalarNode tag value [].

(** [{a: !include one.yaml, b: !include gone.yaml, c: !include two.yaml}];
    there is no file [gone.yaml]. *)
Definition doc_second_fails : tree :=
  T 1 MappingNode "!!map" EmptyString
    [scalar 2 "!!str" "a"; scalar 3 "!include" "one.yaml";
     scalar 4 "!!str" "b"; scalar 5 "!include" "gone.yaml";
     scalar 6 "!!str" "c"; scalar 7 "!include" "two.yaml"].

(** [{a: !include one.yaml, b: !include two.yaml}] *)
Definition doc_two_values : tree :=
  T 1 MappingNode "!!map" EmptyString
    [scalar 2 "!!str" "a"; scalar 3 "!include" "one.yaml";
     scalar 4 "!!str" "b"; scalar 5 "!include" "two.yaml"].

(** [{!include one.yaml : !include two.yaml}]: the key carries the tag. *)
Definition doc_tagged_key : tree :=
  T 1 MappingNode "!!map" EmptyString
    [scalar 2 "!include" "one.yaml"; scalar 3 "!include" "two.yaml"].

(** [[x, {k: v}]]: no node carries the tag. *)
Definition doc_plain : tree :=
  T 1 SequenceNode "!!seq" EmptyString
    [scalar 2 "!!str" "x";
     T 3 MappingNode "!!map" EmptyString [scalar 4 "!!str" "k"; scalar 5 "!!str" "v"]].

Definition state_of (t : tree) : State unit := mkState (store_of t) tt.

(** The resolver of [LoadIncludeTag] over this file system and codec. *)
Definition resolver : @TagProcessor unit (fs_error unit) :=
  @include unit unit fs codec.

Definition result_of {A} (r : exec unit A) : State unit :=
  match r with
  | Normal _ σ => σ
  | Panic σ => σ
  | Timeout => mkState ∅ tt
  end.

(** The states after the first and after the second include of
    [doc_second_fails]. *)
Definition after_first : State unit :=
  result_of (resolver (Some 3%positive) (state_of doc_second_fails)).

Definition after_second : State unit :=
  result_of (resolver (Some 5%positive) after_first).

(** A document that is one [!include_dir_named conf] node. *)
Definition conf_node : State unit :=
  state_of (scalar 1 "!include_dir_named" "conf").

End Demo.

(** ** The include pass as a function on documents *)

Definition tree_value (t : tree) : string :=
  match t with T _ _ _ value _ => value end.

Section MapValues.
Context {A : Type} (f : A → A).

(** [f] on the value positions (odd indices) of a mapping's children. *)
Fixpoint map_values (l : list A) : list A :=
  match l with
  | k :: v :: rest => k :: f v :: map_values rest
  | _ => l
  end.
End MapValues.

(** The document with every node the engine would hand to the resolver
    replaced by the document [doc] gives for its value: nodes that carry
    the tag are replaced and not entered, sequences are entered through
    all items, mappings through their values. *)
Fixpoint expand (tag : string) (doc : string → ytree) (y : ytree) : ytree :=
  match y with
  | YNode k tg value kids =>
    if String.eqb tg tag then doc value
    else match k with
         | SequenceNode => YNode k tg value (map (expand tag doc) kids)
         | MappingNode => YNode k tg value (map_values (expand tag doc) kids)
         | _ => y
         end
  end.

Section DocumentOf.
Context {E : Type} `{!FileSystem E, !Codec E}.

(** The document [LoadFileFragment] returns for the file at [path]:
    there is one when the file can be read and decoded and the fragment
    is not nil (so not for an empty file, nor for a file that holds a
    null). *)
Definition document_of (path : string) : option ytree :=
  match ReadFile path with
  | inr data => match fragment_of data with inr r => r | inl _ => None end
  | inl _ => None
  end.
End DocumentOf.

(** What [expand] means in the store: when the cells of [Tgt] have been
    replaced by documents and the other cells are kept, a document held
    by [h] whose targets are those of [Tgt] is held by [h'] expanded. *)
Definition expands (tag : string) (doc : string → ytree)
    (h h' : gmap loc Node) (Tgt : list loc) (s : tree) : Prop :=
  represents h s → NoDup (locs s) →
  (∀ x, x ∈ locs s → (x ∈ Tgt ↔ x ∈ targets tag s)) →
  ∃ tt, root tt = root s ∧ shape_of tt = expand tag doc (shape_of s) ∧
        represents h' tt.

(** The resolver [fn] replaces a node by the document [doc] gives for its
    value whenever the node is [good]: the node's cell becomes the root of
    that document, built in new cells, and no other cell changes. *)
Definition grafts {W Err} (fn : @TagProcessor W Err) (doc : string → ytree)
    (good : Node → Prop) : Prop :=
  ∀ l nd σ, heap σ !! l = Some nd → good nd →
    ∃ σ1 tt,
      fn (Some l) σ = Normal None σ1 ∧
      root tt = l ∧ shape_of tt = doc (Value nd) ∧ represents (heap σ1) tt ∧
      world σ1 = world σ ∧
      (∀ l', l' ≠ l → is_Some (heap σ !! l') → heap σ1 !! l' = heap σ !! l') ∧
      (∀ x, x ∈ locs tt → x ≠ l → heap σ !! x = None).

Section DirDocument.
Context {E : Type} `{!FileSystem E, !Codec E}.

Definition has_document (path : string) : bool :=
  match document_of path with Some _ => true | None => false end.

(** The pair of a mapping for the file [path]. *)
Definition pair_document (path : string) : list ytree :=
  [YNode ScalarNode "!!str" (fileNameWithoutExt (Base path)) [];
   default (YNode ScalarNode EmptyString EmptyString []) (document_of path)].

(** The mapping [!include_dir_named path] stands for: one pair for every
    file below the directory. *)
Definition dir_document (fuel : nat) (path : string) : ytree :=
  YNode MappingNode "!!map" EmptyString
    (match Lstat path with
     | inr info => flat_map pair_document (walk_files path fuel path info)
     | inl _ => []
     end).

(** The directory can be walked with the fuel at hand and every file
    below it holds a document. *)
Definition dir_ready (fuel : nat) (path : string) : bool :=
  match Lstat path with
  | inr info =>
    within fuel path info &&
    forallb has_document (walk_files path fuel path info)
  | inl _ => false
  end.
End DirDocument.

(** ** A second file system, with a file that is listed but cannot be read,
    a directory whose only file is empty, and files that hold a null *)

Module Demo2.

Definition files : list (string * string) :=
  [("broken/a.yaml", "1"); ("broken/c.yaml", "3");
   ("hollow/empty.yaml", EmptyString); ("null.yaml", "~");
   ("void/null.yaml", "~")].

Definition dirs : list (string * list DirEntry) :=
  [("broken", [mkDirEntry "a.yaml" false; mkDirEntry "b.yaml" false;
               mkDirEntry "c.yaml" false]);
   ("hollow", [mkDirEntry "empty.yaml" false]);
   ("void", [mkDirEntry "null.yaml" false])].

Definition fs : FileSystem unit := {|
  ReadFile p :=
    match Demo.lookup_path files p with Some d => inr d | None => inl tt end;
  Lstat p :=
    match Demo.lookup_path dirs p, Demo.lookup_path files p with
    | Some _, _ => inr (mkDirEntry (Demo.last_element p EmptyString) true)
    | None, Some _ => inr (mkDirEntry (Demo.last_element p EmptyString) false)
    | None, None => inl tt
    end;
  ReadDir p :=
    match Demo.lookup_path dirs p with
    | Some ds => (ds, None)
    | None => ([], Some tt)
    end;
  Join p name := (p ++ "/" ++ name)%string;
  Base p := Demo.last_element p EmptyString;
  windows := false
|}.

(** A document node above an [!include]. *)
Definition doc_under_document : tree :=
  T 1 DocumentNode EmptyString EmptyString
    [Demo.scalar 2 "!include" "one.yaml"].

(** [[x, !include_dir_named conf]] *)
Definition doc_with_dir : tree :=
  T 1 SequenceNode "!!seq" EmptyString
    [Demo.scalar 2 "!!str" "x"; Demo.scalar 3 "!include_dir_named" "conf"].

(** A sequence whose only item is a nil pointer. *)
Definition nil_item : State unit :=
  mkState {[ 1%positive := mkNode SequenceNode "!!seq" EmptyString [None] ]} tt.

(** The document of a file of [Demo.fs], or an empty scalar. *)
Definition doc (path : string) : ytree :=
  default (YNode ScalarNode EmptyString EmptyString [])
          (@document_of unit Demo.fs Demo.codec path).

End Demo2.

(** * Proofs *)

#[local] Set Warnings "-clear-no-such-hyp".

Lemma tree_ind_kids (P : tree → Prop) :
  (∀ l k tag value kids, Forall P kids → P (T l k tag value kids)) →
  ∀ t, P t.
Proof.
  intros step. fix IH 1. intros [l k tag value kids].
  apply step. induction kids as [|s kids IHk]; constructor; [apply IH | exact IHk].
Qed.

Section EngineFacts.
Context {W Err : Type}.
Implicit Types (fn : @TagProcessor W Err) (σ : State W) (t : tree).

Lemma HandleCustomTag_S fuel n tag fn :
  HandleCustomTag (S fuel) n tag fn =
    (do nTag <- load Tag n;
     if String.eqb nTag tag then
       do err <- fn n;
       match err with
       | Some e => ret (Some e)
       | None => ret None
       end
     else
       do nKind <- load kind n;
       match nKind with
       | SequenceNode =>
         do content <- load Content n;
         range_loop (λ c, HandleCustomTag fuel c tag fn) content
       | MappingNode => mapping_loop fuel n tag fn 1
       | _ => ret None
       end).
Proof. reflexivity. Qed.

Lemma mapping_loop_S fuel n tag fn i :
  mapping_loop (S fuel) n tag fn i =
    (do content <- load Content n;
     if (i <? length content)%nat then
       do c <- index content i;
       do err <- HandleCustomTag fuel c tag fn;
       match err with
       | Some e => ret (Some e)
       | None => mapping_loop fuel n tag fn (i + 2)
       end
     else ret None).
Proof. reflexivity. Qed.

Lemma load_at {A} (f : Node → A) l nd σ :
  heap σ !! l = Some nd → load (W:=W) f (Some l) σ = Normal (f nd) σ.
Proof. intros H. unfold load, bind, deref, ret. by rewrite H. Qed.

Lemma bind_err_id (m : M W (@error Err)) σ :
  (do err <- m; match err with Some e => ret (Some e) | None => ret None end) σ = m σ.
Proof. unfold bind, ret. by destruct (m σ) as [[e|] ?| |]. Qed.

(** At a node whose tag matches, the engine is one resolver call. *)
Lemma HandleCustomTag_match fuel l nd tag fn σ :
  heap σ !! l = Some nd → Tag nd = tag →
  HandleCustomTag (S fuel) (Some l) tag fn σ = fn (Some l) σ.
Proof.
  intros Hl Ht. rewrite HandleCustomTag_S. unfold bind at 1.
  rewrite (load_at _ _ _ _ Hl), Ht, String.eqb_refl. apply bind_err_id.
Qed.

Lemma range_loop_app (rec : ptr → M W (@error Err)) xs ys σ :
  range_loop rec (xs ++ ys) σ =
    match range_loop rec xs σ with
    | Normal None σ' => range_loop rec ys σ'
    | r => r
    end.
Proof.
  revert σ. induction xs as [|x xs IH]; intros σ; simpl; [done|].
  unfold bind. destruct (rec x σ) as [[e|] σ'| |]; simpl; try done.
Qed.

Lemma resolve_each_app fn xs ys σ :
  resolve_each fn (xs ++ ys) σ =
    match resolve_each fn xs σ with
    | Normal None σ' => resolve_each fn ys σ'
    | r => r
    end.
Proof. unfold resolve_each. rewrite map_app. apply range_loop_app. Qed.

(** A completed run of calls leaves alone the cells it was not called on. *)
Lemma resolve_each_frame fn ls0 ls L σ σ' l' :
  frames fn ls0 L → ls ⊆ ls0 →
  final (resolve_each fn ls σ) = Some σ' →
  l' ∈ L → l' ∉ ls → is_Some (heap σ !! l') →
  heap σ' !! l' = heap σ !! l'.
Proof.
  intros Hfr. revert σ. induction ls as [|l ls IH]; intros σ Hsub Hfin HL Hnot Hin.
  - simpl in Hfin. by injection Hfin as <-.
  - assert (Hstep : ∀ σ1, final (fn (Some l) σ) = Some σ1 →
              heap σ1 !! l' = heap σ !! l').
    { intros σ1 H1. apply (Hfr l σ σ1 l'); auto; set_solver. }
    unfold resolve_each in Hfin. simpl in Hfin. unfold bind in Hfin.
    destruct (fn (Some l) σ) as [[e|] σ1| σ1|] eqn:Hfn; simpl in Hfin; try done.
    + injection Hfin as <-. by apply Hstep.
    + rewrite <- (Hstep σ1 eq_refl).
      apply IH; [set_solver | done | done | set_solver |].
      by rewrite (Hstep σ1 eq_refl).
    + injection Hfin as <-. by apply Hstep.
Qed.
End EngineFacts.

Lemma list_ind_pairs {A} (P : list A → Prop) :
  P [] → (∀ x, P [x]) → (∀ x y l, P l → P (x :: y :: l)) → ∀ l, P l.
Proof.
  intros H0 H1 H2. fix IH 1. intros [|x [|y l]]; [exact H0 | apply H1 |].
  apply H2, IH.
Qed.

Lemma locs_T l k tg v kids : locs (T l k tg v kids) = l :: flat_map locs kids.
Proof.
  unfold locs. simpl. f_equal.
  induction kids as [|s kids IH]; simpl; [done|].
  by rewrite map_app, IH.
Qed.

Lemma represents_T h l k tg v kids :
  represents h (T l k tg v kids) ↔
  h !! l = Some (cell (T l k tg v kids)) ∧ Forall (represents h) kids.
Proof.
  unfold represents. simpl nodes. rewrite Forall_cons.
  apply and_iff_compat_l.
  induction kids as [|s kids IH]; simpl.
  - split; constructor.
  - rewrite Forall_app, Forall_cons, IH. done.
Qed.

Lemma represents_agree h h' t :
  (∀ l, l ∈ locs t → h' !! l = h !! l) → represents h t → represents h' t.
Proof.
  unfold represents, locs. intros Hag Hr.
  rewrite Forall_forall in *. intros s Hs.
  rewrite Hag; [by apply Hr|]. apply list_elem_of_fmap. eauto.
Qed.

Lemma represents_dom h t l : represents h t → l ∈ locs t → is_Some (h !! l).
Proof.
  unfold represents, locs. rewrite Forall_forall. intros Hr Hl.
  apply list_elem_of_fmap in Hl as (s & -> & Hs). rewrite (Hr s Hs). eauto.
Qed.

Lemma elem_of_flat_map {A B} (f : A → list B) (l : list A) (y : B) :
  y ∈ flat_map f l ↔ ∃ x, x ∈ l ∧ y ∈ f x.
Proof.
  rewrite !list_elem_of_In, in_flat_map.
  split; intros (x & H1 & H2); exists x; by rewrite ?list_elem_of_In in *.
Qed.

Lemma on_values_flat_map {A B} (f : A → list B) l :
  on_values f l = flat_map f (values l).
Proof. induction l as [| x | x y l IH] using list_ind_pairs; simpl; by rewrite ?IH. Qed.

Lemma values_subseteq {A} (l : list A) : values l ⊆ l.
Proof.
  induction l as [| x | x y l IH] using list_ind_pairs; simpl; set_solver.
Qed.

Lemma keys_subseteq {A} (l : list A) : keys l ⊆ l.
Proof.
  induction l as [| x | x y l IH] using list_ind_pairs; simpl; set_solver.
Qed.

Lemma targets_locs tag t : targets tag t ⊆ locs t.
Proof.
  induction t as [l k tg v kids IH] using tree_ind_kids.
  rewrite locs_T. simpl. destruct (String.eqb tg tag); [set_solver|].
  assert (Hk : flat_map (targets tag) kids ⊆ flat_map locs kids).
  { intros x. rewrite !elem_of_flat_map. intros (s & Hs & Hx).
    exists s. split; [done|]. rewrite Forall_forall in IH. by apply (IH s). }
  destruct k; try set_solver.
  rewrite on_values_flat_map. intros x Hx. apply list_elem_of_further, Hk.
  revert Hx. rewrite !elem_of_flat_map. intros (s & Hs & Hx).
  exists s. split; [by apply values_subseteq | done].
Qed.

Section SequenceLoop.
Context {W Err : Type}.
Implicit Types (fn : @TagProcessor W Err) (σ : State W) (t : tree).

Lemma frames_mono fn ls ls' L :
  ls' ⊆ ls → frames fn ls L → frames fn ls' L.
Proof. intros Hs Hf l σ σ' l' Hl. apply Hf. by apply Hs. Qed.

(** The [range] loop of a sequence over children that each behave as
    their target lists say. *)
Lemma range_loop_kids tag fn L fuel (ks : list tree) :
  Forall (λ s, ∀ fuel σ,
    represents (heap σ) s → NoDup (locs s) → locs s ⊆ L →
    frames fn (targets tag s) L → cost s ≤ fuel →
    HandleCustomTag fuel (Some (root s)) tag fn σ
      = resolve_each fn (targets tag s) σ) ks →
  ∀ σ,
    Forall (represents (heap σ)) ks →
    NoDup (flat_map locs ks) → flat_map locs ks ⊆ L →
    frames fn (flat_map (targets tag) ks) L →
    Forall (λ s, cost s ≤ fuel) ks →
    range_loop (λ c, HandleCustomTag fuel c tag fn)
               (map (λ s, Some (root s)) ks) σ
      = resolve_each fn (flat_map (targets tag) ks) σ.
Proof.
  induction 1 as [|s ks IHs _ IHks]; intros σ Hrep Hnd HL Hfr Hfuel; [done|].
  apply Forall_cons in Hrep as [Hs Hks].
  apply Forall_cons in Hfuel as [Hfs Hfks].
  simpl in Hnd, HL, Hfr. apply NoDup_app in Hnd as (Hnds & Hdisj & Hndks).
  simpl. rewrite resolve_each_app. unfold bind at 1.
  rewrite IHs; [|done|done|set_solver|by eapply frames_mono; [|exact Hfr]; set_solver|done].
  destruct (resolve_each fn (targets tag s) σ) as [[e|] σ'| |] eqn:Hrun; try done.
  apply IHks; [|done|set_solver|by eapply frames_mono; [|exact Hfr]; set_solver|done].
  rewrite Forall_forall in Hks |- *. intros s' Hs'.
  apply (represents_agree (heap σ)); [|by apply Hks].
  intros l' Hl'.
  assert (Hin : l' ∈ flat_map locs ks) by (apply elem_of_flat_map; eauto).
  eapply (resolve_each_frame fn _ (targets tag s) L σ σ' l').
  - exact Hfr.
  - set_solver.
  - by rewrite Hrun.
  - set_solver.
  - intros Ht. apply targets_locs in Ht. by apply (Hdisj l').
  - eapply represents_dom; [by apply Hks|done].
Qed.
End SequenceLoop.

Section MappingLoop.
Context {W Err : Type}.
Implicit Types (fn : @TagProcessor W Err) (σ : State W) (t : tree).

(** The mapping loop from index [length pre + 1] on, over the children
    [ks] that remain after [pre]. *)
Lemma mapping_loop_kids tag fn L l nd (kids : list tree) :
  Content nd = map (λ s, Some (root s)) kids →
  l ∈ L →
  Forall (λ s, ∀ fuel σ,
    represents (heap σ) s → NoDup (locs s) → locs s ⊆ L →
    frames fn (targets tag s) L → cost s ≤ fuel →
    HandleCustomTag fuel (Some (root s)) tag fn σ
      = resolve_each fn (targets tag s) σ) kids →
  ∀ ks pre fuel σ,
    kids = pre ++ ks →
    heap σ !! l = Some nd →
    Forall (represents (heap σ)) ks →
    NoDup (l :: flat_map locs ks) → flat_map locs ks ⊆ L →
    frames fn (on_values (targets tag) ks) L →
    pair_cost ks < fuel →
    mapping_loop fuel (Some l) tag fn (length pre + 1) σ
      = resolve_each fn (on_values (targets tag) ks) σ.
Proof.
  intros Hcontent HlL IH ks.
  induction ks as [| k | k v ks IHks] using list_ind_pairs;
    intros pre fuel σ Hkids Hl Hrep Hnd HL Hfr Hfuel.
  - destruct fuel as [|fuel]; [lia|]. rewrite mapping_loop_S. unfold bind.
    rewrite (load_at _ _ _ _ Hl), Hcontent, length_map, Hkids, length_app.
    simpl. rewrite (proj2 (Nat.ltb_ge _ _)); [done | lia].
  - destruct fuel as [|fuel]; [lia|]. rewrite mapping_loop_S. unfold bind.
    rewrite (load_at _ _ _ _ Hl), Hcontent, length_map, Hkids, length_app.
    simpl. rewrite (proj2 (Nat.ltb_ge _ _)); [done | lia].
  - destruct fuel as [|fuel]; [unfold pair_cost in Hfuel; simpl in Hfuel; lia|].
    rewrite mapping_loop_S. unfold bind at 1.
    rewrite (load_at _ _ _ _ Hl), Hcontent, length_map.
    assert (Hlen : length pre + 1 < length kids).
    { rewrite Hkids, length_app. simpl. lia. }
    rewrite (proj2 (Nat.ltb_lt _ _) Hlen).
    assert (Hidx : map (λ s, Some (root s)) kids !! (length pre + 1)
                   = Some (Some (root v))).
    { rewrite list_lookup_fmap, Hkids.
      rewrite lookup_app_r by lia.
      replace (length pre + 1 - length pre) with 1 by lia. done. }
    unfold bind at 1, index. rewrite Hidx.
    apply Forall_cons in Hrep as [Hk Hrep].
    apply Forall_cons in Hrep as [Hv Hrep].
    unfold pair_cost in Hfuel. simpl in Hfuel.
    rewrite NoDup_cons in Hnd. destruct Hnd as [Hlnot Hnd].
    simpl in Hnd, Hlnot, HL, Hfr.
    apply NoDup_app in Hnd as (Hndk & Hdk & Hnd).
    apply NoDup_app in Hnd as (Hndv & Hdv & Hnd).
    assert (Hv_kids : v ∈ kids) by (rewrite Hkids; set_solver).
    rewrite Forall_forall in IH.
    simpl on_values. rewrite resolve_each_app. unfold bind at 1.
    rewrite (IH v Hv_kids);
      [|done|done|set_solver|by eapply frames_mono; [|exact Hfr]; set_solver|lia].
    pose proof (targets_locs tag v) as Htl.
    destruct (resolve_each fn (targets tag v) σ) as [[e|] σ'| |] eqn:Hrun; try done.
    assert (Hkeep : ∀ l', l' ∈ L → l' ∉ locs v → is_Some (heap σ !! l') →
              heap σ' !! l' = heap σ !! l').
    { intros l' H1 H2 H3.
      eapply (resolve_each_frame fn _ (targets tag v) L σ σ' l');
        [exact Hfr|set_solver|by rewrite Hrun|done|set_solver|done]. }
    replace (length pre + 1 + 2) with (length (pre ++ [k; v]) + 1)
      by (rewrite length_app; simpl; lia).
    apply IHks.
    + by rewrite <- app_assoc.
    + rewrite Hkeep; [done|done|set_solver|by rewrite Hl].
    + rewrite Forall_forall in Hrep |- *. intros s Hs.
      apply (represents_agree (heap σ)); [|by apply Hrep].
      intros l' Hl'.
      assert (Hin : l' ∈ flat_map locs ks) by (apply elem_of_flat_map; eauto).
      apply Hkeep; [set_solver| |eapply represents_dom; [by apply Hrep|done]].
      intros Hc. by apply (Hdv l').
    + rewrite NoDup_cons. split; [set_solver|done].
    + set_solver.
    + eapply frames_mono; [|exact Hfr]. set_solver.
    + unfold pair_cost. lia.
Qed.

Lemma range_loop_cost (kids : list tree) fuel :
  pair_cost kids < fuel → Forall (λ s, cost s ≤ fuel) kids.
Proof.
  unfold pair_cost. induction kids as [|s kids IH]; simpl; intros H; constructor.
  - lia.
  - apply IH. lia.
Qed.

(** On a tree-shaped document whose other cells the resolver leaves
    alone, the engine is the plain sequence of resolver calls on the
    targets, in their order, up to the first error. *)
Lemma HandleCustomTag_tree_in tag fn L t :
  ∀ fuel σ,
    represents (heap σ) t → NoDup (locs t) → locs t ⊆ L →
    frames fn (targets tag t) L → cost t ≤ fuel →
    HandleCustomTag fuel (Some (root t)) tag fn σ
      = resolve_each fn (targets tag t) σ.
Proof.
  induction t as [l k tg v kids IH] using tree_ind_kids.
  intros fuel σ Hrep Hnd HL Hfr Hfuel.
  apply represents_T in Hrep as [Hl Hkids].
  rewrite locs_T in Hnd, HL.
  destruct fuel as [|fuel]; [simpl in Hfuel; lia|].
  simpl in Hfuel. fold (pair_cost kids) in Hfuel.
  simpl root. simpl targets in *.
  destruct (String.eqb tg tag) eqn:Htag.
  - apply String.eqb_eq in Htag.
    rewrite (HandleCustomTag_match fuel l _ tag fn σ Hl Htag).
    unfold resolve_each. simpl. symmetry. apply bind_err_id.
  - rewrite HandleCustomTag_S. unfold bind at 1.
    rewrite (load_at _ _ _ _ Hl). cbn [Tag cell]. rewrite Htag.
    unfold bind at 1. rewrite (load_at _ _ _ _ Hl). cbn [kind cell].
    destruct k; try done.
    + unfold bind at 1. rewrite (load_at _ _ _ _ Hl). cbn [Content cell].
      apply NoDup_cons in Hnd as [_ Hnd].
      apply (range_loop_kids tag fn L); auto; [set_solver|].
      apply range_loop_cost. lia.
    + apply (mapping_loop_kids tag fn L l (cell (T l MappingNode tg v kids)) kids eq_refl)
        with (pre := []);
        auto; [set_solver|set_solver|lia].
Qed.
End MappingLoop.

(** ** Observing the resolver calls *)

Section Logging.
Context {W Err : Type}.
Implicit Types (fn : @TagProcessor W Err) (σ : State W).

Lemma erase_with_log σ log : erase (with_log σ log) = σ.
Proof. by destruct σ. Qed.

Lemma frames_logging fn ls L : frames fn ls L → frames (logging fn) ls L.
Proof.
  intros Hf l s s' l' Hl Hfin HL Hne Hin.
  unfold logging in Hfin.
  destruct (fn (Some l) (erase s)) as [e σ1|σ1|] eqn:Hfn; simpl in Hfin;
    try done; injection Hfin as <-; simpl;
    apply (Hf l (erase s) σ1 l'); auto; by rewrite Hfn.
Qed.

Lemma called_prefix fn ls σ : called fn ls σ `prefix_of` ls.
Proof.
  revert σ. induction ls as [|l ls IH]; intros σ; simpl; [done|].
  apply prefix_cons.
  destruct (fn (Some l) σ) as [[e|] σ'| |]; auto using prefix_nil.
Qed.

Lemma called_all fn ls σ σ' :
  resolve_each fn ls σ = Normal None σ' → called fn ls σ = ls.
Proof.
  revert σ. induction ls as [|l ls IH]; intros σ; [done|].
  unfold resolve_each. simpl. unfold bind.
  destruct (fn (Some l) σ) as [[e|] σ1| |]; try done.
  intros H. f_equal. by apply IH.
Qed.

(** A logged run is the plain run, with the calls made appended. *)
Lemma resolve_each_logging fn ls σ log :
  resolve_each (logging fn) ls (with_log σ log) =
    match resolve_each fn ls σ with
    | Normal e σ' => Normal e (with_log σ' (log ++ map Some (called fn ls σ)))
    | Panic σ' => Panic (with_log σ' (log ++ map Some (called fn ls σ)))
    | Timeout => Timeout
    end.
Proof.
  revert σ log. induction ls as [|l ls IH]; intros σ log.
  - unfold resolve_each. simpl. unfold ret. by rewrite app_nil_r.
  - unfold resolve_each in *. simpl. unfold bind, logging.
    rewrite erase_with_log.
    destruct (fn (Some l) σ) as [[e|] σ1| σ1|]; simpl; unfold ret; try done.
    rewrite IH.
    destruct (range_loop fn (map Some ls) σ1) as [e σ2|σ2|];
      by rewrite <- ?app_assoc.
Qed.

Lemma resolve_each_total fn ls σ :
  total fn → is_Some (final (resolve_each fn ls σ)).
Proof.
  intros Ht. revert σ. induction ls as [|l ls IH]; intros σ; [by eexists|].
  unfold resolve_each in *. simpl. unfold bind.
  destruct (Ht (Some l) σ) as [σ1 H1].
  destruct (fn (Some l) σ) as [[e|] σ'|σ'|]; simpl in *; eauto.
Qed.
End Logging.

(** ** Where the targets lie in the document *)

Lemma flat_map_sublist {A B} (f g : A → list B) (l : list A) :
  Forall (λ x, f x `sublist_of` g x) l → flat_map f l `sublist_of` flat_map g l.
Proof. induction 1; simpl; [done|]. by apply sublist_app. Qed.

(** The targets come in document order. *)
Lemma targets_sublist tag t : targets tag t `sublist_of` locs t.
Proof.
  induction t as [l k tg v kids IH] using tree_ind_kids.
  rewrite locs_T. simpl. destruct (String.eqb tg tag).
  { apply sublist_skip, sublist_nil_l. }
  apply sublist_cons.
  destruct k; try apply sublist_nil_l.
  - by apply flat_map_sublist.
  - clear -IH. induction kids as [| x | x y kids IHk] using list_ind_pairs;
      simpl; try apply sublist_nil_l.
    apply Forall_cons in IH as [_ IH]. apply Forall_cons in IH as [Hy IH].
    apply sublist_inserts_l, sublist_app; auto.
Qed.

Lemma key_region_locs t : key_region t ⊆ locs t.
Proof.
  induction t as [l k tg v kids IH] using tree_ind_kids.
  rewrite locs_T. simpl. intros x Hx. apply list_elem_of_further.
  apply elem_of_app in Hx as [Hx|Hx].
  - destruct k; try set_solver.
    revert Hx. rewrite !elem_of_flat_map. intros (s & Hs & Hx).
    exists s. split; [by apply keys_subseteq | done].
  - revert Hx. rewrite !elem_of_flat_map. intros (s & Hs & Hx).
    exists s. split; [done|]. rewrite Forall_forall in IH. by apply (IH s).
Qed.

(** Distinct children of an unshared node have no address in common. *)
Lemma flat_map_NoDup_eq {A B} (f : A → list B) (l : list A) s s' x :
  NoDup (flat_map f l) → s ∈ l → s' ∈ l → x ∈ f s → x ∈ f s' → s = s'.
Proof.
  induction l as [|a l IH]; simpl; intros Hnd Hs Hs' Hx Hx'; [set_solver|].
  apply NoDup_app in Hnd as (_ & Hdisj & Hnd).
  apply elem_of_cons in Hs as [->|Hs]; apply elem_of_cons in Hs' as [->|Hs']; auto.
  - exfalso. apply (Hdisj x Hx). apply elem_of_flat_map. eauto.
  - exfalso. apply (Hdisj x Hx'). apply elem_of_flat_map. eauto.
Qed.

Lemma keys_values_disjoint {A B} (f : A → list B) (l : list A) k v x :
  NoDup (flat_map f l) → k ∈ keys l → v ∈ values l → x ∈ f k → x ∈ f v → False.
Proof.
  induction l as [| a | a b l IH] using list_ind_pairs; simpl;
    intros Hnd Hk Hv Hxk Hxv; [set_solver|set_solver|].
  apply NoDup_app in Hnd as (_ & Hda & Hnd).
  apply NoDup_app in Hnd as (_ & Hdb & Hnd).
  apply elem_of_cons in Hk as [->|Hk]; apply elem_of_cons in Hv as [->|Hv].
  - apply (Hda x Hxk). set_solver.
  - apply (Hda x Hxk). apply elem_of_app. right.
    apply elem_of_flat_map. exists v. split; [by apply values_subseteq|done].
  - apply (Hdb x Hxv). apply elem_of_flat_map. exists k.
    split; [by apply keys_subseteq|done].
  - by apply IH.
Qed.

(** No target lies in key position or below a key. *)
Lemma targets_not_keys tag t x :
  NoDup (locs t) → x ∈ targets tag t → x ∉ key_region t.
Proof.
  induction t as [l k tg v kids IH] using tree_ind_kids.
  rewrite locs_T, NoDup_cons. intros [Hl Hnd] Hx Hkey.
  pose proof (key_region_locs (T l k tg v kids)) as Hsub.
  simpl in Hx. destruct (String.eqb tg tag).
  { apply list_elem_of_singleton in Hx as ->.
    simpl in Hkey. apply Hl. clear -Hkey.
    apply elem_of_app in Hkey as [Hx|Hx].
    - destruct k; try set_solver.
      revert Hx. rewrite !elem_of_flat_map. intros (s & Hs & Hx).
      exists s. split; [by apply keys_subseteq | done].
    - revert Hx. rewrite !elem_of_flat_map. intros (s & Hs & Hx).
      exists s. split; [done|]. by apply key_region_locs. }
  assert (Hkid : ∃ s, s ∈ kids ∧ x ∈ targets tag s ∧
                      (k = MappingNode → s ∈ values kids)).
  { destruct k; try (by apply elem_of_nil in Hx).
    - apply elem_of_flat_map in Hx as (s & Hs & Hx). exists s. by split_and!.
    - rewrite on_values_flat_map in Hx.
      apply elem_of_flat_map in Hx as (s & Hs & Hx). exists s.
      split_and!; [by apply values_subseteq|done|done]. }
  destruct Hkid as (s & Hs & Hxs & Hval).
  pose proof (targets_locs tag s x Hxs) as Hxl.
  simpl in Hkey. apply elem_of_app in Hkey as [Hkey|Hkey].
  - destruct k; try set_solver.
    apply elem_of_flat_map in Hkey as (s' & Hs' & Hx').
    apply (keys_values_disjoint locs kids s' s x); auto.
  - apply elem_of_flat_map in Hkey as (s' & Hs' & Hx').
    assert (s = s') as <-.
    { apply (flat_map_NoDup_eq locs kids s s' x); auto. by apply key_region_locs. }
    rewrite Forall_forall in IH. apply (IH s Hs); auto.
    clear -Hnd Hs. induction kids as [|a kids IHk]; [set_solver|].
    simpl in Hnd. apply NoDup_app in Hnd as (Ha & _ & Hk).
    apply elem_of_cons in Hs as [->|Hs]; auto.
Qed.

(** In a mapping that does not match, every target lies in a value. *)
Lemma targets_mapping_values tag l tg v kids x :
  String.eqb tg tag = false →
  x ∈ targets tag (T l MappingNode tg v kids) →
  x ∈ flat_map locs (values kids).
Proof.
  simpl. intros -> Hx. rewrite on_values_flat_map in Hx.
  apply elem_of_flat_map in Hx as (s & Hs & Hx).
  apply elem_of_flat_map. exists s. split; [done|by apply (targets_locs tag s)].
Qed.

Lemma Forall_flat_map {A B} (P : B → Prop) (f : A → list B) (l : list A) :
  Forall P (flat_map f l) ↔ Forall (λ x, Forall P (f x)) l.
Proof.
  induction l as [|a l IH]; simpl; [split; constructor|].
  by rewrite Forall_app, Forall_cons, IH.
Qed.

(** A document without a matching tag has no target. *)
Lemma targets_nil tag t :
  Forall (λ s, tree_tag s ≠ tag) (nodes t) → targets tag t = [].
Proof.
  induction t as [l k tg v kids IH] using tree_ind_kids.
  simpl. rewrite Forall_cons, Forall_flat_map. intros [Htag Hkids].
  simpl in Htag. apply String.eqb_neq in Htag. rewrite Htag.
  assert (Hall : Forall (λ s, targets tag s = []) kids).
  { rewrite Forall_forall in *. intros s Hs. apply IH; auto. }
  clear -Hall. destruct k; try done.
  - induction Hall as [|s kids Hs _ IHk]; simpl; [done|]. by rewrite Hs, IHk.
  - rewrite on_values_flat_map.
    assert (Hv : Forall (λ s, targets tag s = []) (values kids)).
    { rewrite Forall_forall in *. intros s Hs. by apply Hall, values_subseteq. }
    induction Hv as [|s vs Hs _ IHk]; simpl; [done|]. by rewrite Hs, IHk.
Qed.

(** The mapping [{a: !t X, b: !t Y}]: the targets are [X], then [Y]. *)
Lemma targets_two_values tag l tg v a x b y :
  String.eqb tg tag = false → tree_tag x = tag → tree_tag y = tag →
  targets tag (T l MappingNode tg v [a; x; b; y]) = [root x; root y].
Proof.
  intros Htg Hx Hy. destruct x, y. simpl in *. subst.
  by rewrite Htg, !String.eqb_refl.
Qed.

(** Every target is a node of the document that carries the tag. *)
Lemma targets_match tag t x :
  x ∈ targets tag t → ∃ s, s ∈ nodes t ∧ root s = x ∧ tree_tag s = tag.
Proof.
  induction t as [l k tg v kids IH] using tree_ind_kids.
  simpl. destruct (String.eqb tg tag) eqn:Htag.
  { intros ->%list_elem_of_singleton. apply String.eqb_eq in Htag.
    exists (T l k tg v kids). split_and!; [set_solver|done|done]. }
  intros Hx.
  assert (Hkid : ∃ s, s ∈ kids ∧ x ∈ targets tag s).
  { destruct k; try (by apply elem_of_nil in Hx).
    - by apply elem_of_flat_map in Hx.
    - rewrite on_values_flat_map in Hx.
      apply elem_of_flat_map in Hx as (s & Hs & Hx). exists s.
      split; [by apply values_subseteq|done]. }
  destruct Hkid as (s & Hs & Hxs).
  rewrite Forall_forall in IH. destruct (IH s Hs Hxs) as (s' & Hs' & Hr & Ht).
  exists s'. split_and!; [|done|done].
  apply list_elem_of_further, elem_of_flat_map. eauto.
Qed.

Section EngineRun.
Context {W Err : Type}.
Implicit Types (fn : @TagProcessor W Err) (σ : State W) (t : tree).

(** The engine on an unshared document. *)
Lemma HandleCustomTag_tree tag fn t fuel σ :
  represents (heap σ) t → unshared t →
  frames fn (targets tag t) (locs t) → cost t ≤ fuel →
  HandleCustomTag fuel (Some (root t)) tag fn σ
    = resolve_each fn (targets tag t) σ.
Proof. intros. by apply (HandleCustomTag_tree_in tag fn (locs t)). Qed.
End EngineRun.

Section EngineLogged.
Context {W Err : Type}.
Implicit Types (fn : @TagProcessor W Err) (σ : State W) (t : tree).

(** The same run with the resolver calls recorded. *)
Lemma HandleCustomTag_logged tag fn t fuel σ log :
  represents (heap σ) t → unshared t →
  frames fn (targets tag t) (locs t) → cost t ≤ fuel →
  HandleCustomTag fuel (Some (root t)) tag (logging fn) (with_log σ log) =
    match resolve_each fn (targets tag t) σ with
    | Normal e σ' =>
        Normal e (with_log σ' (log ++ map Some (called fn (targets tag t) σ)))
    | Panic σ' =>
        Panic (with_log σ' (log ++ map Some (called fn (targets tag t) σ)))
    | Timeout => Timeout
    end.
Proof.
  intros Hrep Hun Hfr Hfuel.
  rewrite HandleCustomTag_tree; auto using frames_logging.
  apply resolve_each_logging.
Qed.

Lemma targets_NoDup tag t : unshared t → NoDup (targets tag t).
Proof. intros Hun. exact (sublist_NoDup _ _ Hun (targets_sublist tag t)). Qed.
End EngineLogged.

Lemma ytree_ind_kids (P : ytree → Prop) :
  (∀ k tag value kids, Forall P kids → P (YNode k tag value kids)) →
  ∀ t, P t.
Proof.
  intros step. fix IH 1. intros [k tag value kids].
  apply step. induction kids as [|s kids IHk]; constructor; [apply IH | exact IHk].
Qed.

Lemma represents_mono h h' t : h ⊆ h' → represents h t → represents h' t.
Proof.
  unfold represents. intros Hsub Hr. eapply Forall_impl; [exact Hr|].
  intros s Hs. simpl in Hs. exact (lookup_weaken h h' _ _ Hs Hsub).
Qed.

Section Alloc.
Context {W : Type}.
Implicit Types (σ : State W).

Lemma alloc_fresh nd σ :
  ∃ l, alloc nd σ = Normal (Some l) (mkState (<[l := nd]> (heap σ)) (world σ))
       ∧ heap σ !! l = None.
Proof.
  unfold alloc. eexists. split; [done|].
  apply not_elem_of_dom, is_fresh.
Qed.

Lemma alloc_tree_built t σ :
  ∃ l σ', alloc_tree t σ = Normal (Some l) σ' ∧ built σ t l σ'.
Proof.
  revert σ. induction t as [k tag value kids IH] using ytree_ind_kids.
  intros σ. cbn [alloc_tree].
  assert (Hkids : ∃ (ts : list tree) σ1,
    mapM alloc_tree kids σ = Normal (map (λ s, Some (root s)) ts) σ1 ∧
    heap σ ⊆ heap σ1 ∧ world σ1 = world σ ∧
    map shape_of ts = kids ∧
    Forall (represents (heap σ1)) ts ∧
    NoDup (flat_map locs ts) ∧
    (∀ x, x ∈ flat_map locs ts → heap σ !! x = None)).
  { clear k tag value. revert σ.
    induction IH as [|s kids Hs _ IHk]; intros σ.
    - exists [], σ. split_and!; try done; [constructor|]. simpl. set_solver.
    - destruct (Hs σ) as (l & σ1 & Hrun & Hsub & Hw & tt & Hroot & Hshape & Hrep & Hun & Hfresh).
      destruct (IHk σ1) as (ts & σ2 & Hrun2 & Hsub2 & Hw2 & Hshape2 & Hrep2 & Hnd2 & Hfresh2).
      exists (tt :: ts), σ2. simpl. unfold bind. rewrite Hrun, Hrun2. simpl.
      unfold ret. rewrite Hroot. split_and!; try done.
      + by etrans.
      + congruence.
      + congruence.
      + constructor; [by eapply represents_mono|done].
      + apply NoDup_app. split_and!; [done| |done].
        intros x Hx Hx2. apply Hfresh2 in Hx2.
        destruct (represents_dom _ _ _ Hrep Hx) as [nd Hnd]. congruence.
      + intros x [Hx|Hx]%elem_of_app; [by apply Hfresh|].
        apply Hfresh2 in Hx. by eapply lookup_weaken_None. }
  destruct Hkids as (ts & σ1 & Hrun & Hsub & Hw & Hshape & Hrep & Hnd & Hfresh).
  unfold bind. rewrite Hrun.
  destruct (alloc_fresh (mkNode k tag value (map (λ s, Some (root s)) ts)) σ1)
    as (l & Hal & Hl).
  rewrite Hal. eexists _, _. split; [reflexivity|].
  assert (Hsub1 : heap σ1 ⊆ <[l := mkNode k tag value (map (λ s, Some (root s)) ts)]> (heap σ1))
    by by apply insert_subseteq.
  split_and!; simpl.
  - etrans; [exact Hsub|exact Hsub1].
  - done.
  - exists (T l k tag value ts). split_and!; try done.
    + simpl. by rewrite Hshape.
    + apply represents_T. split; [simpl; by rewrite lookup_insert_eq|].
      eapply Forall_impl; [exact Hrep|]. intros s. by apply represents_mono.
    + unfold unshared. rewrite locs_T. apply NoDup_cons. split; [|done].
      intros Hin. apply elem_of_flat_map in Hin as (s & Hs & Hin).
      rewrite Forall_forall in Hrep.
      destruct (represents_dom _ _ _ (Hrep s Hs) Hin) as [nd Hnd2]. congruence.
    + intros x. rewrite locs_T. intros [->|Hx]%elem_of_cons.
      * by eapply lookup_weaken_None.
      * by apply Hfresh.
Qed.
End Alloc.

Section LoaderFacts.
Context {W E : Type} `{!FileSystem E, !Codec E}.
Implicit Types (σ : State W).

Lemma LoadFileFragment_read_error path e σ :
  ReadFile path = inl e →
  LoadFileFragment path σ = Normal (None, Some (Other e)) σ.
Proof. unfold LoadFileFragment. by intros ->. Qed.

(** [LoadFileFragment] on a file that can be read, by what the decoder
    makes of its bytes. *)
Lemma LoadFileFragment_decode_error path data e σ :
  ReadFile path = inr data → fragment_of data = inl e →
  LoadFileFragment path σ = Normal (None, Some (Other e)) σ.
Proof.
  unfold LoadFileFragment, Unmarshal, fragment_of. intros -> Hf.
  unfold bind. destruct (parse data) as [e'| |t]; [by simplify_eq/=|done|].
  destruct (String.eqb (ytag t) nullTag); [|done].
  destruct (decode_struct t) as [e'|[c|]]; by simplify_eq/=.
Qed.

Lemma LoadFileFragment_nil path data σ :
  ReadFile path = inr data → fragment_of data = inr None →
  LoadFileFragment path σ = Normal (None, None) σ.
Proof.
  unfold LoadFileFragment, Unmarshal, fragment_of. intros -> Hf.
  unfold bind. destruct (parse data) as [e'| |t]; [done|done|].
  destruct (String.eqb (ytag t) nullTag); [|done].
  destruct (decode_struct t) as [e'|[c|]]; by simplify_eq/=.
Qed.

Lemma LoadFileFragment_fragment path data t σ :
  ReadFile path = inr data → fragment_of data = inr (Some t) →
  ∃ l σ', LoadFileFragment path σ = Normal (Some l, None) σ' ∧ built σ t l σ'.
Proof.
  unfold LoadFileFragment, Unmarshal, fragment_of. intros -> Hf.
  destruct (alloc_tree_built (W:=W) t σ) as (l & σ' & Hrun & Hb).
  exists l, σ'. split; [|done].
  unfold bind. destruct (parse data) as [e'| |t']; [done|done|].
  destruct (String.eqb (ytag t') nullTag).
  - rewrite Hf. unfold bind. by rewrite Hrun.
  - injection Hf as ->. unfold bind. by rewrite Hrun.
Qed.

Lemma fragment_of_document data t :
  parse data = Document t → ytag t ≠ nullTag →
  fragment_of data = inr (Some t).
Proof.
  unfold fragment_of. intros -> Hne. apply String.eqb_neq in Hne.
  by rewrite Hne.
Qed.

Lemma LoadFileFragment_parse_error path data e σ :
  ReadFile path = inr data → parse data = ParseError e →
  LoadFileFragment path σ = Normal (None, Some (Other e)) σ.
Proof.
  intros Hr Hp. apply (LoadFileFragment_decode_error path data); [done|].
  unfold fragment_of. by rewrite Hp.
Qed.

Lemma LoadFileFragment_no_document path data σ :
  ReadFile path = inr data → parse data = NoDocument →
  LoadFileFragment path σ = Normal (None, None) σ.
Proof.
  intros Hr Hp. apply (LoadFileFragment_nil path data); [done|].
  unfold fragment_of. by rewrite Hp.
Qed.

Lemma LoadFileFragment_document path data t σ :
  ReadFile path = inr data → parse data = Document t → ytag t ≠ nullTag →
  ∃ l σ', LoadFileFragment path σ = Normal (Some l, None) σ' ∧ built σ t l σ'.
Proof.
  intros Hr Hp Hne.
  by apply (LoadFileFragment_fragment path data), fragment_of_document.
Qed.

(** Loading a file always returns, only adds cells to the store, and its
    error is never a sentinel of the walk. *)
Lemma LoadFileFragment_extends path σ :
  ∃ r σ', LoadFileFragment path σ = Normal r σ' ∧
          heap σ ⊆ heap σ' ∧ world σ' = world σ ∧
          (∀ e, snd r = Some e → ∃ e', e = Other e').
Proof.
  destruct (ReadFile path) as [e|data] eqn:Hr.
  { eexists _, _. split; [by apply LoadFileFragment_read_error|].
    split_and!; try done. simpl. intros ? [= <-]. eauto. }
  destruct (fragment_of data) as [e|[t|]] eqn:Hp.
  - eexists _, _. split; [by eapply LoadFileFragment_decode_error|].
    split_and!; try done. simpl. intros ? [= <-]. eauto.
  - destruct (LoadFileFragment_fragment path data t σ Hr Hp)
      as (l & σ' & Hrun & Hsub & Hw & _).
    eexists _, _. split; [exact Hrun|done].
  - eexists _, _. split; [by eapply LoadFileFragment_nil|done].
Qed.

Lemma include_frames ls L : frames (W:=W) include ls L.
Proof.
  intros l σ σ' l' _ Hfin _ Hne Hin.
  unfold include, load, deref, store, ret, bind in Hfin. cbn beta in Hfin.
  destruct (heap σ !! l) as [nd|] eqn:Hl; cbn beta iota in Hfin;
    [|by simplify_eq/=].
  destruct (LoadFileFragment_extends (Value nd) σ) as (r & σ1 & Hrun & Hsub & Hw & _).
  rewrite Hrun in Hfin. cbn beta iota in Hfin.
  assert (H1 : heap σ1 !! l' = heap σ !! l').
  { destruct Hin as [x Hx]. rewrite Hx. by eapply lookup_weaken. }
  destruct r as [frag [e|]]; cbn beta iota in Hfin; [by simplify_eq/=|].
  destruct frag as [f|]; cbn in Hfin; [|by simplify_eq/=].
  destruct (heap σ1 !! f) as [nd'|]; cbn beta iota in Hfin; [|by simplify_eq/=].
  rewrite (lookup_weaken _ _ _ _ Hl Hsub) in Hfin.
  simplify_eq/=. by rewrite lookup_insert_ne.
Qed.

Lemma include_total : total (W:=W) include.
Proof.
  intros n σ. unfold include, load, deref, store, ret, bind. cbn beta.
  destruct n as [l|]; [|by eexists].
  destruct (heap σ !! l) as [nd|] eqn:Hl; cbn beta iota; [|by eexists].
  destruct (LoadFileFragment_extends (Value nd) σ) as (r & σ1 & Hrun & Hsub & Hw & _).
  rewrite Hrun. cbn beta iota.
  destruct r as [frag [e|]]; cbn beta iota; [by eexists|].
  destruct frag as [f|]; cbn; [|by eexists].
  destruct (heap σ1 !! f) as [nd'|]; cbn beta iota; [|by eexists].
  rewrite (lookup_weaken _ _ _ _ Hl Hsub). by eexists.
Qed.

End LoaderFacts.

Section WalkFacts.
Context {W E : Type} `{!FileSystem E, !Codec E}.
Implicit Types (σ : State (W * list ptr)).

Lemma bind_Normal {V A B} (m : M V A) (k : A → M V B) s a s' :
  m s = Normal a s' → bind m k s = k a s'.
Proof. unfold bind. by intros ->. Qed.

Lemma add_file_extends path σ :
  ∃ r σ', add_file path σ = Normal r σ' ∧ heap σ ⊆ heap σ' ∧
          fst (world σ') = fst (world σ) ∧
          (∀ e, r = Some e → ∃ e', e = Other e').
Proof.
  unfold add_file.
  destruct (LoadFileFragment_extends path σ) as ([f err] & σ1 & Hrun & Hsub & Hw & Herr).
  rewrite (bind_Normal _ _ _ _ _ Hrun). simpl in *.
  destruct err as [e|].
  - eexists _, _. split; [done|]. split_and!; [done|by rewrite Hw|].
    intros ? [= <-]. by apply Herr.
  - destruct (alloc_fresh (mkNode ScalarNode "!!str" (fileNameWithoutExt (Base path)) []) σ1)
      as (k & Hal & Hk).
    rewrite (bind_Normal _ _ _ _ _ Hal).
    eexists _, _. split; [reflexivity|]. simpl. split_and!; [|by rewrite Hw|done].
    etrans; [exact Hsub|]. by apply insert_subseteq.
Qed.

Lemma add_files_extends ps σ :
  ∃ r σ', add_files ps σ = Normal r σ' ∧ heap σ ⊆ heap σ' ∧
          fst (world σ') = fst (world σ) ∧
          (∀ e, r = Some e → ∃ e', e = Other e').
Proof.
  revert σ. induction ps as [|p ps IH]; intros σ; simpl.
  { eexists _, _. by split_and!. }
  destruct (add_file_extends p σ) as (r & σ1 & Hrun & Hsub & Hw & Herr).
  rewrite (bind_Normal _ _ _ _ _ Hrun). destruct r as [e|].
  - eexists _, _. by split_and!.
  - destruct (IH σ1) as (r2 & σ2 & Hrun2 & Hsub2 & Hw2 & Herr2).
    eexists _, _. split; [exact Hrun2|]. split_and!; [by etrans|congruence|done].
Qed.

Lemma add_files_app ps qs σ :
  add_files (ps ++ qs) σ =
    match add_files ps σ with
    | Normal None σ' => add_files qs σ'
    | r => r
    end.
Proof.
  revert σ. induction ps as [|p ps IH]; intros σ; simpl; [done|].
  unfold bind. destruct (add_file p σ) as [[e|] σ'|σ'|]; simpl; try done.
Qed.

Lemma walk_fn_skips n nd path d err σ :
  heap σ !! n = Some nd →
  (String.eqb path (Value nd) = true ∨ IsDir d = true) →
  include_dir_walk_fn (Some n) path (Some d) err σ = Normal None σ.
Proof.
  intros Hn Hskip. unfold include_dir_walk_fn.
  rewrite (bind_Normal _ _ _ _ _ (load_at Value n nd σ Hn)).
  destruct (String.eqb path (Value nd)); [done|].
  destruct Hskip as [?| ->]; done.
Qed.

Lemma walk_fn_file n nd path d err σ :
  heap σ !! n = Some nd →
  String.eqb path (Value nd) = false → IsDir d = false →
  include_dir_walk_fn (Some n) path (Some d) err σ = add_file path σ.
Proof.
  intros Hn Hne Hd. unfold include_dir_walk_fn.
  rewrite (bind_Normal _ _ _ _ _ (load_at Value n nd σ Hn)).
  by rewrite Hne, Hd.
Qed.

(** The walk with the callback of the package is the plain loop over
    the files below the directory. *)
Lemma walkDir_add_files n nd fuel :
  ∀ path d σ,
    heap σ !! n = Some nd →
    within fuel path d = true →
    walkDir fuel path d (include_dir_walk_fn (Some n)) σ
      = add_files (walk_files (Value nd) fuel path d) σ.
Proof.
  induction fuel as [|fuel IH]; intros path d σ Hn Hin; [done|].
  simpl in Hin. cbn [walkDir walk_files].
  destruct (IsDir d) eqn:Hd.
  - rewrite (bind_Normal _ _ _ _ _ (walk_fn_skips n nd path d None σ Hn (or_intror Hd))).
    cbn [not_nil orb negb].
    assert (Hstop :
      match snd (ReadDir path) with
      | Some e =>
        do err <- include_dir_walk_fn (Some n) path (Some d) (Some (Other e));
        if not_nil err then
          if is_SkipDir err && true then ret (Some None) else ret (Some err)
        else ret None
      | None => ret None
      end σ = Normal (None : option (@error (fs_error E))) σ).
    { destruct (snd (ReadDir path)) as [e|]; [|done].
      by rewrite (bind_Normal _ _ _ _ _
                    (walk_fn_skips n nd path d _ σ Hn (or_intror Hd))). }
    rewrite (bind_Normal _ _ _ _ _ Hstop).
    clear Hstop. revert σ Hn Hin.
    induction (fst (ReadDir path)) as [|d1 ds IHds]; intros σ Hn Hin; [done|].
    simpl in Hin. apply andb_prop in Hin as [Hin1 Hin2].
    cbn [flat_map]. rewrite add_files_app.
    unfold bind at 1. rewrite (IH _ _ _ Hn Hin1).
    destruct (add_files_extends
                (walk_files (Value nd) fuel (Join path (Name d1)) d1) σ)
      as (r & σ1 & Hrun & Hsub & _ & Herr).
    rewrite Hrun. destruct r as [e|].
    + destruct (Herr e eq_refl) as [e' ->]. done.
    + cbn [not_nil]. apply IHds; [|done]. by eapply lookup_weaken.
  - destruct (String.eqb path (Value nd)) eqn:Hp.
    + rewrite (bind_Normal _ _ _ _ _ (walk_fn_skips n nd path d None σ Hn (or_introl Hp))).
      done.
    + unfold bind. rewrite (walk_fn_file n nd path d None σ Hn Hp Hd).
      simpl. unfold bind.
      destruct (add_file path σ) as [[e|] σ'|σ'|]; simpl;
        rewrite ?andb_false_r; done.
Qed.
End WalkFacts.

Section DirFacts.
Context {W E : Type} `{!FileSystem E, !Codec E}.
Implicit Types (σ : State (W * list ptr)).

Lemma pair_ok_mono h0 h0' h h' path kf :
  h0' ⊆ h0 → h ⊆ h' → pair_ok h0 h path kf → pair_ok h0' h' path kf.
Proof.
  intros H0 Hh (Hk & Hf & data & Hr & Hp). split_and!.
  - by eapply lookup_weaken.
  - by eapply lookup_weaken_None.
  - exists data. split; [done|]. destruct (fragment_of data) as [e|[t|]]; try done.
    destruct Hp as (tt & ? & ? & ? & ? & Hfr). exists tt. split_and!; try done.
    + by eapply represents_mono.
    + intros x Hx. eapply lookup_weaken_None; [by apply Hfr|done].
Qed.

Lemma add_file_ok path σ :
  loads path = true →
  ∃ kf σ', add_file path σ = Normal None σ' ∧ heap σ ⊆ heap σ' ∧
           world σ' = (fst (world σ), snd (world σ) ++ [Some kf.1; kf.2]) ∧
           pair_ok (heap σ) (heap σ') path kf.
Proof.
  unfold loads, add_file. intros Hl.
  destruct (ReadFile path) as [e|data] eqn:Hr; [done|].
  destruct (fragment_of data) as [e|[t|]] eqn:Hp; [done| |]; cycle 1.
  - rewrite (bind_Normal _ _ _ _ _ (LoadFileFragment_nil path data σ Hr Hp)).
    cbn [snd fst].
    destruct (alloc_fresh (mkNode ScalarNode "!!str" (fileNameWithoutExt (Base path)) []) σ)
      as (k & Hal & Hk).
    rewrite (bind_Normal _ _ _ _ _ Hal).
    exists (k, None). eexists. split; [reflexivity|].
    cbn [heap world fst snd]. split_and!; [by apply insert_subseteq|done|].
    unfold pair_ok. cbn [fst snd]. split_and!; [by rewrite lookup_insert_eq|done|].
    exists data. by rewrite Hp.
  - destruct (LoadFileFragment_fragment path data t σ Hr Hp)
      as (l & σ1 & Hrun & Hsub & Hw & tt & Hroot & Hshape & Hrep & Hun & Hfresh).
    rewrite (bind_Normal _ _ _ _ _ Hrun). cbn [snd fst].
    destruct (alloc_fresh (mkNode ScalarNode "!!str" (fileNameWithoutExt (Base path)) []) σ1)
      as (k & Hal & Hk).
    rewrite (bind_Normal _ _ _ _ _ Hal).
    assert (Hsub1 : heap σ1 ⊆ <[k := mkNode ScalarNode "!!str" (fileNameWithoutExt (Base path)) []]> (heap σ1))
      by by apply insert_subseteq.
    exists (k, Some l). eexists. split; [reflexivity|].
    cbn [heap world fst snd]. split_and!; [by etrans|by rewrite Hw|].
    unfold pair_ok. cbn [fst snd].
    split_and!; [by rewrite lookup_insert_eq|by eapply lookup_weaken_None|].
    exists data. rewrite Hp. split; [done|]. exists tt.
    split_and!; try done; [congruence|by eapply represents_mono].
Qed.

Lemma add_files_ok ps σ :
  forallb loads ps = true →
  ∃ pairs σ', add_files ps σ = Normal None σ' ∧ heap σ ⊆ heap σ' ∧
              world σ' = (fst (world σ), snd (world σ) ++ pair_content pairs) ∧
              Forall2 (pair_ok (heap σ) (heap σ')) ps pairs.
Proof.
  revert σ. induction ps as [|p ps IH]; intros σ Hl.
  { exists [], σ. simpl. rewrite app_nil_r.
    split_and!; [done|done|by destruct σ as [h [w c]]|constructor]. }
  simpl in Hl. apply andb_prop in Hl as [Hp Hps].
  destruct (add_file_ok p σ Hp) as (kf & σ1 & Hrun & Hsub & Hw & Hok).
  destruct (IH σ1 Hps) as (pairs & σ2 & Hrun2 & Hsub2 & Hw2 & Hoks).
  exists (kf :: pairs), σ2. simpl. rewrite (bind_Normal _ _ _ _ _ Hrun).
  split_and!; try done.
  - by etrans.
  - rewrite Hw2, Hw. simpl. by rewrite <- app_assoc.
  - constructor.
    + by apply (pair_ok_mono (heap σ) (heap σ) (heap σ1) (heap σ2)).
    + eapply Forall2_impl; [exact Hoks|]. intros p' kf'.
      by apply pair_ok_mono.
Qed.

Lemma WalkDir_add_files n nd info fuel σ :
  heap σ !! n = Some nd →
  Lstat (Value nd) = inr info →
  within fuel (Value nd) info = true →
  WalkDir fuel (Value nd) (include_dir_walk_fn (Some n)) σ
    = add_files (walk_files (Value nd) fuel (Value nd) info) σ.
Proof.
  intros Hn Hst Hin. unfold WalkDir. rewrite Hst.
  unfold bind. rewrite (walkDir_add_files n nd fuel _ _ σ Hn Hin).
  destruct (add_files_extends (walk_files (Value nd) fuel (Value nd) info) σ)
    as (r & σ1 & Hrun & _ & _ & Herr).
  rewrite Hrun. destruct r as [e|]; [|done].
  by destruct (Herr e eq_refl) as [e' ->].
Qed.
End DirFacts.

Section DirResolver.
Context {W E : Type} `{!FileSystem E, !Codec E}.
Implicit Types (σ : State W).

(** The resolver of [!include_dir_named] on a directory all of whose
    files load: the node becomes a mapping with one pair per file below
    the directory, in the order of the walk. *)
Lemma include_dir_named_ok n nd info fuel σ :
  heap σ !! n = Some nd →
  Lstat (Value nd) = inr info →
  within fuel (Value nd) info = true →
  forallb loads (walk_files (Value nd) fuel (Value nd) info) = true →
  ∃ pairs σ',
    include_dir_named fuel (Some n) σ = Normal None σ' ∧
    heap σ' !! n = Some (mkNode MappingNode "!!map" EmptyString (pair_content pairs)) ∧
    world σ' = world σ ∧
    (∀ l, l ≠ n → is_Some (heap σ !! l) → heap σ' !! l = heap σ !! l) ∧
    Forall2 (pair_ok (heap σ) (heap σ'))
            (walk_files (Value nd) fuel (Value nd) info) pairs.
Proof.
  intros Hn Hst Hin Hl. unfold include_dir_named.
  rewrite (bind_Normal _ _ _ _ _ (load_at Value n nd σ Hn)).
  set (s0 := mkState (heap σ) (world σ, @nil ptr)).
  destruct (add_files_ok (W:=W) (walk_files (Value nd) fuel (Value nd) info) s0 Hl)
    as (pairs & s1 & Hrun & Hsub & Hw & Hoks).
  assert (Hwl : with_local [] (WalkDir fuel (Value nd) (include_dir_walk_fn (Some n))) σ
                = Normal (None, pair_content pairs) (mkState (heap s1) (world σ))).
  { unfold with_local. fold s0.
    rewrite (WalkDir_add_files n nd info fuel s0 Hn Hst Hin), Hrun, Hw. done. }
  rewrite (bind_Normal _ _ _ _ _ Hwl). cbn [fst snd].
  unfold bind, store. cbn [heap world].
  rewrite (lookup_weaken _ _ _ _ Hn Hsub). unfold ret.
  exists pairs. eexists. split; [reflexivity|]. cbn [heap world].
  split_and!; try done.
  - by rewrite lookup_insert_eq.
  - intros l Hne [x Hx]. rewrite lookup_insert_ne by done.
    rewrite Hx. by eapply lookup_weaken.
  - eapply Forall2_impl; [exact Hoks|]. intros p kf (Hk & Hf & data & Hr & Hp).
    simpl in Hf.
    split_and!; try done.
    + rewrite lookup_insert_ne; [done|]. intros ->. congruence.
    + exists data. split; [done|]. destruct (fragment_of data) as [e|[t|]]; try done.
      destruct Hp as (tt & ? & ? & Hrep & ? & Hfr). exists tt. split_and!; try done.
      apply (represents_agree (heap s1)); [|done].
      intros x Hx. rewrite lookup_insert_ne; [done|].
      intros ->. apply Hfr in Hx. simpl in Hx. congruence.
Qed.
End DirResolver.

Section ReachFacts.
Context {E : Type} `{!FileSystem E, !Codec E}.

Lemma forallb_elem {A} (f : A → bool) (l : list A) x :
  forallb f l = true → x ∈ l → f x = true.
Proof.
  rewrite forallb_forall. intros H Hx. apply H. by apply list_elem_of_In.
Qed.

(** The files of the walk are the entries below the directory that are
    not directories (and are not named like the root). *)
Lemma walk_files_reach root fuel :
  ∀ path d p,
    within fuel path d = true →
    (p ∈ walk_files root fuel path d ↔
     ∃ d', reach path d p d' ∧ IsDir d' = false ∧ p ≠ root).
Proof.
  induction fuel as [|fuel IH]; intros path d p Hin; [done|].
  simpl in *. destruct (IsDir d) eqn:Hd.
  - rewrite elem_of_flat_map. split.
    + intros (d1 & Hd1 & Hp).
      apply IH in Hp as (d' & Hr & Hf & Hne);
        [|by apply (forallb_elem _ _ d1 Hin)].
      exists d'. split_and!; try done. by eapply reach_down.
    + intros (d' & Hr & Hf & Hne). inversion Hr; subst; [congruence|].
      exists d1. split; [done|]. apply IH; [by apply (forallb_elem _ _ d1 Hin)|].
      by exists d'.
  - destruct (String.eqb path root) eqn:Hp.
    + apply String.eqb_eq in Hp as ->. split; [by intros ?%elem_of_nil|].
      intros (d' & Hr & Hf & Hne). inversion Hr; subst; congruence.
    + apply String.eqb_neq in Hp. rewrite list_elem_of_singleton. split.
      * intros ->. exists d. split_and!; [constructor|done|done].
      * intros (d' & Hr & Hf & Hne). inversion Hr; subst; [done|congruence].
Qed.

Lemma fileNameWithoutExt_from_no_dot name k :
  (∀ i, String.get i name ≠ Some "."%char) →
  fileNameWithoutExt_from name k = EmptyString.
Proof.
  intros Hno. induction k as [|i IH]; simpl; [done|].
  destruct (String.get i name) as [c|] eqn:Hc; [|done].
  destruct (IsPathSeparator c); [done|].
  destruct (Ascii.eqb c ".") eqn:Hdot; [|done].
  apply Ascii.eqb_eq in Hdot as ->. exfalso. by apply (Hno i).
Qed.

Lemma fileNameWithoutExt_a_yaml : fileNameWithoutExt "a.yaml" = "a".
Proof.
  unfold fileNameWithoutExt. cbn -[IsPathSeparator]. unfold IsPathSeparator.
  by destruct windows.
Qed.

Lemma fileNameWithoutExt_b_yaml : fileNameWithoutExt "b.yaml" = "b".
Proof.
  unfold fileNameWithoutExt. cbn -[IsPathSeparator]. unfold IsPathSeparator.
  by destruct windows.
Qed.
End ReachFacts.

(** ** Computations that only add cells *)


Section Extends.
Context {W : Type}.

Lemma extends_ret {A} (a : A) : extends (W:=W) (ret a).
Proof. intros σ σ' [= <-]. done. Qed.

Lemma extends_panic {A} : extends (W:=W) (panic (A:=A)).
Proof. intros σ σ' [= <-]. done. Qed.

Lemma extends_timeout {A} : extends (W:=W) (timeout (A:=A)).
Proof. intros σ σ' [=]. Qed.

Lemma extends_bind {A B} (m : M W A) (k : A → M W B) :
  extends m → (∀ a, extends (k a)) → extends (bind m k).
Proof.
  intros Hm Hk σ σ'. unfold bind.
  destruct (m σ) as [a σ1|σ1|] eqn:Hrun; simpl; intros Hfin; try done.
  - etrans; [apply (Hm σ σ1); by rewrite Hrun|by apply (Hk a)].
  - injection Hfin as <-. apply (Hm σ σ1). by rewrite Hrun.
Qed.

Lemma extends_load {A} (f : Node → A) n : extends (W:=W) (load f n).
Proof.
  intros σ σ'. unfold load, deref, bind, ret.
  destruct n as [l|]; [destruct (heap σ !! l)|]; by intros [= <-].
Qed.

Lemma extends_alloc nd : extends (W:=W) (alloc nd).
Proof.
  intros σ σ'. unfold alloc. intros [= <-]. simpl.
  apply insert_subseteq, not_elem_of_dom, is_fresh.
Qed.
End Extends.

Section ExtendsLoaders.
Context {W E : Type} `{!FileSystem E, !Codec E}.

Lemma extends_LoadFileFragment path : extends (W:=W) (LoadFileFragment path).
Proof.
  intros σ σ'.
  destruct (LoadFileFragment_extends path σ) as (r & σ1 & -> & Hsub & _).
  by intros [= <-].
Qed.

Lemma extends_get_local {L} : extends (get_local (W:=W) (L:=L)).
Proof. by intros σ σ' [= <-]. Qed.

Lemma extends_set_local {L} (x : L) : extends (set_local (W:=W) x).
Proof. by intros σ σ' [= <-]. Qed.

Lemma extends_with_local {L A} (init : L) (m : M (W * L) A) :
  extends m → extends (with_local init m).
Proof.
  intros Hm σ σ'. unfold with_local.
  destruct (m (mkState (heap σ) (world σ, init))) as [a s|s|] eqn:Hrun;
    simpl; intros Hfin; try done; injection Hfin as <-;
    apply (Hm (mkState (heap σ) (world σ, init)) s); by rewrite Hrun.
Qed.

(** The walk only adds cells when its callback does. *)
Lemma extends_walkDir (fn : @WalkDirFunc W E) :
  (∀ path entry err, extends (fn path entry err)) →
  ∀ fuel path d, extends (walkDir fuel path d fn).
Proof.
  intros Hfn. induction fuel as [|fuel IH]; intros path d;
    [apply extends_timeout|].
  cbn [walkDir]. apply extends_bind; [apply Hfn|]. intros err.
  destruct (not_nil err || negb (IsDir d)).
  { destruct (is_SkipDir err && IsDir d); apply extends_ret. }
  apply extends_bind.
  { destruct (snd (ReadDir path)) as [e|]; [|apply extends_ret].
    apply extends_bind; [apply Hfn|]. intros err'.
    destruct (not_nil err'); [|apply extends_ret].
    destruct (is_SkipDir err' && IsDir d); apply extends_ret. }
  intros [r|]; [apply extends_ret|].
  induction (fst (ReadDir path)) as [|d1 ds IHds]; [apply extends_ret|].
  apply extends_bind; [apply IH|]. intros err'.
  destruct (not_nil err'); [|apply IHds].
  destruct (is_SkipDir err'); apply extends_ret.
Qed.

Lemma extends_WalkDir (fn : @WalkDirFunc W E) fuel root :
  (∀ path entry err, extends (fn path entry err)) →
  extends (WalkDir fuel root fn).
Proof.
  intros Hfn. unfold WalkDir. apply extends_bind.
  - destruct (Lstat root); [apply Hfn|by apply extends_walkDir].
  - intros err. destruct (is_SkipDir err || is_SkipAll err); apply extends_ret.
Qed.
End ExtendsLoaders.

Section ExtendsDir.
Context {W E : Type} `{!FileSystem E, !Codec E}.

Lemma extends_include_dir_walk_fn n path entry err :
  extends (include_dir_walk_fn (W:=W) n path entry err).
Proof.
  unfold include_dir_walk_fn. apply extends_bind; [apply extends_load|].
  intros v. destruct (String.eqb path v); [apply extends_ret|].
  destruct entry as [d|]; [|apply extends_panic].
  destruct (IsDir d); [apply extends_ret|].
  apply extends_bind; [apply extends_LoadFileFragment|]. intros r.
  destruct (snd r); [apply extends_ret|].
  apply extends_bind; [apply extends_alloc|]. intros key.
  apply extends_bind; [apply extends_get_local|]. intros content.
  apply extends_bind; [apply extends_set_local|]. intros _. apply extends_ret.
Qed.

(** The resolver of [!include_dir_named] overwrites the node it is handed
    and otherwise only adds cells. *)
Lemma include_dir_named_frames fuel ls L :
  frames (W:=W) (include_dir_named fuel) ls L.
Proof.
  intros l σ σ' l' _ Hfin _ Hne [x Hx].
  unfold include_dir_named, load, deref, store, ret, bind in Hfin.
  cbn beta in Hfin.
  destruct (heap σ !! l) as [nd|] eqn:Hl; cbn beta iota in Hfin;
    [|by simplify_eq/=].
  pose proof (extends_with_local (@nil ptr) _
                (extends_WalkDir (include_dir_walk_fn (Some l)) fuel (Value nd)
                   (extends_include_dir_walk_fn (Some l))) σ) as Hext.
  destruct (with_local [] (WalkDir fuel (Value nd) (include_dir_walk_fn (Some l))) σ)
    as [[err content] σ1|σ1|] eqn:Hrun; cbn beta iota in Hfin;
    [|by simplify_eq/=; rewrite Hx; eapply lookup_weaken; [|by apply Hext]
     |by simplify_eq/=].
  assert (Hsub : heap σ ⊆ heap σ1) by by apply Hext.
  destruct err as [e|]; cbn in Hfin.
  - simplify_eq/=. rewrite Hx. by eapply lookup_weaken.
  - rewrite (lookup_weaken _ _ _ _ Hl Hsub) in Hfin. simplify_eq/=.
    rewrite lookup_insert_ne by done. rewrite Hx. by eapply lookup_weaken.
Qed.

(** The two loaders of the package on a tree-shaped document: each is the
    plain sequence of its resolver's calls on the targets. *)
Lemma LoadIncludeTag_on_tree t fuel (σ : State W) :
  represents (heap σ) t → unshared t → cost t ≤ fuel →
  LoadIncludeTag fuel (Some (root t)) σ
    = resolve_each include (targets "!include" t) σ.
Proof.
  intros. unfold LoadIncludeTag.
  apply HandleCustomTag_tree; auto using include_frames.
Qed.

Lemma LoadIncludeDirNamedTag_on_tree t fuel (σ : State W) :
  represents (heap σ) t → unshared t → cost t ≤ fuel →
  LoadIncludeDirNamedTag fuel (Some (root t)) σ
    = resolve_each (include_dir_named fuel)
                   (targets "!include_dir_named" t) σ.
Proof.
  intros. unfold LoadIncludeDirNamedTag.
  apply HandleCustomTag_tree; auto using include_dir_named_frames.
Qed.
End ExtendsDir.

(** ** The engine only runs the resolver *)

Section ReplayFacts.
Context {W Err : Type}.
Implicit Types (fn : @TagProcessor W Err).

Lemma replay_app fn ns1 ns2 σ σ1 :
  replay fn ns1 σ = Some σ1 → replay fn (ns1 ++ ns2) σ = replay fn ns2 σ1.
Proof.
  revert σ. induction ns1 as [|n ns1 IH]; intros σ; simpl; [by intros [= <-]|].
  destruct (final (fn n σ)) as [σ'|]; [apply IH|done].
Qed.

Lemma only_calls_same fn {A} (m : M (W * list ptr) A) :
  (∀ s s', final (m s) = Some s' → s' = s) → only_calls fn m.
Proof.
  intros Hm s s' Hfin. rewrite (Hm s s' Hfin). exists []. by rewrite app_nil_r.
Qed.

Lemma only_calls_ret fn {A} (a : A) : only_calls fn (ret a).
Proof. apply only_calls_same. by intros s s' [= <-]. Qed.

Lemma only_calls_timeout fn {A} : only_calls fn (timeout (A:=A)).
Proof. by intros s s' [=]. Qed.

Lemma only_calls_load fn {A} (f : Node → A) n : only_calls fn (load f n).
Proof.
  apply only_calls_same. intros s s'. unfold load, deref, bind, ret.
  destruct n as [l|]; [destruct (heap s !! l)|]; by intros [= <-].
Qed.

Lemma only_calls_index fn {A} (l : list A) i : only_calls fn (index l i).
Proof.
  apply only_calls_same. intros s s'. unfold index.
  destruct (l !! i); by intros [= <-].
Qed.

Lemma only_calls_bind fn {A B} (m : M (W * list ptr) A) (k : A → M (W * list ptr) B) :
  only_calls fn m → (∀ a, only_calls fn (k a)) → only_calls fn (bind m k).
Proof.
  intros Hm Hk s s'. unfold bind.
  destruct (m s) as [a s1|s1|] eqn:Hrun; simpl; intros Hfin; try done.
  - destruct (Hm s s1) as (ns1 & Hc1 & Hr1); [by rewrite Hrun|].
    destruct (Hk a s1 s' Hfin) as (ns2 & Hc2 & Hr2).
    exists (ns1 ++ ns2). split; [by rewrite Hc2, Hc1, app_assoc|].
    by rewrite (replay_app fn ns1 ns2 _ _ Hr1).
  - injection Hfin as <-. apply (Hm s s1). by rewrite Hrun.
Qed.

Lemma only_calls_logging fn n : only_calls fn (logging fn n).
Proof.
  intros s s'. unfold logging.
  destruct (fn n (erase s)) as [e σ1|σ1|] eqn:Hrun; simpl; intros Hfin;
    try done; injection Hfin as <-; exists [n]; (split; [done|]);
    simpl; rewrite Hrun; simpl; by destruct σ1.
Qed.

Lemma only_calls_range_loop fn (rec : ptr → M (W * list ptr) (@error Err)) cs :
  (∀ c, only_calls fn (rec c)) → only_calls fn (range_loop rec cs).
Proof.
  intros Hrec. induction cs as [|c cs IH]; simpl; [apply only_calls_ret|].
  apply only_calls_bind; [apply Hrec|].
  intros [e|]; [apply only_calls_ret|apply IH].
Qed.

Lemma only_calls_engine fn tag fuel :
  (∀ n, only_calls fn (HandleCustomTag fuel n tag (logging fn))) ∧
  (∀ n i, only_calls fn (mapping_loop fuel n tag (logging fn) i)).
Proof.
  induction fuel as [|fuel [IHh IHm]];
    [split; intros; apply only_calls_timeout|].
  split.
  - intros n. rewrite HandleCustomTag_S.
    apply only_calls_bind; [apply only_calls_load|]. intros nTag.
    destruct (String.eqb nTag tag).
    { apply only_calls_bind; [apply only_calls_logging|].
      intros [e|]; apply only_calls_ret. }
    apply only_calls_bind; [apply only_calls_load|]. intros k.
    destruct k; try apply only_calls_ret; [|apply IHm].
    apply only_calls_bind; [apply only_calls_load|]. intros content.
    by apply only_calls_range_loop.
  - intros n i. rewrite mapping_loop_S.
    apply only_calls_bind; [apply only_calls_load|]. intros content.
    destruct (i <? length content); [|apply only_calls_ret].
    apply only_calls_bind; [apply only_calls_index|]. intros c.
    apply only_calls_bind; [apply IHh|].
    intros [e|]; [apply only_calls_ret|apply IHm].
Qed.

(** X1: on any store and for any resolver, the state [HandleCustomTag]
    ends in is the one its resolver calls made, in the order of the log:
    the engine writes nothing and takes nothing back. *)
Lemma engine_state_is_resolver_made fn tag fuel n σ s' :
  final (HandleCustomTag fuel n tag (logging fn) (with_log σ [])) = Some s' →
  replay fn (calls s') σ = Some (erase s').
Proof.
  intros Hfin.
  destruct (proj1 (only_calls_engine fn tag fuel) n _ _ Hfin) as (ns & Hc & Hr).
  simpl in Hc. rewrite Hc. by rewrite erase_with_log in Hr.
Qed.
End ReplayFacts.

(** * The properties of the specification *)

Section EngineClaims.
Context {W Err : Type}.
Implicit Types (fn : @TagProcessor W Err) (σ : State W) (t : tree).

(** C6: on a tree-shaped document in which no node carries the searched
    tag, [HandleCustomTag] returns nil and the state it returns is the
    state it was given: no cell of the store (kind, tag, value, children)
    is changed and the resolver is never run. *)
Theorem no_match_leaves_document_unchanged tag fn t fuel σ :
  represents (heap σ) t → unshared t →
  Forall (λ s, tree_tag s ≠ tag) (nodes t) →
  cost t ≤ fuel →
  HandleCustomTag fuel (Some (root t)) tag fn σ = Normal None σ.
Proof.
  intros Hrep Hun Hno Hfuel.
  pose proof (targets_nil tag t Hno) as Hnil.
  rewrite HandleCustomTag_tree; auto.
  - by rewrite Hnil.
  - rewrite Hnil. intros l ? ? ? Hl. by apply elem_of_nil in Hl.
Qed.

(** C4: called on a node whose tag equals the searched tag,
    [HandleCustomTag] is exactly one call of the resolver on that node:
    its outcome and final state are the resolver's, and the log of
    invocations holds that node once and nothing else.  Whatever the
    resolver put in place is returned as it is, never entered. *)
Theorem matching_node_resolved_once fuel l nd tag fn σ :
  heap σ !! l = Some nd → Tag nd = tag →
  HandleCustomTag (S fuel) (Some l) tag fn σ = fn (Some l) σ ∧
  ∀ s' : State (W * list ptr),
    final (HandleCustomTag (S fuel) (Some l) tag (logging fn) (with_log σ []))
      = Some s' →
    calls s' = [Some l] ∧ final (fn (Some l) σ) = Some (erase s').
Proof.
  intros Hl Htag. split; [by apply (HandleCustomTag_match fuel l nd)|].
  intros s'.
  rewrite (HandleCustomTag_match fuel l nd tag (logging fn) (with_log σ []) Hl Htag).
  unfold logging. rewrite erase_with_log.
  destruct (fn (Some l) σ) as [e σ1|σ1|]; simpl; intros H; try done;
    injection H as <-; by rewrite erase_with_log.
Qed.

(** C3: on a tree-shaped document, the resolver is invoked on nodes
    that carry the tag, in document order: the log is the list of
    targets up to the first call that fails, a prefix of the targets and
    a subsequence of the depth-first, left-to-right listing of the
    document; when the run returns nil every target was resolved. *)
Theorem resolver_calls_in_document_order tag fn t fuel σ :
  represents (heap σ) t → unshared t →
  frames fn (targets tag t) (locs t) → total fn →
  cost t ≤ fuel →
  let r := HandleCustomTag fuel (Some (root t)) tag (logging fn) (with_log σ []) in
  ∃ (s' : State (W * list ptr)) ls,
    final r = Some s' ∧
    calls s' = map Some ls ∧
    ls = called fn (targets tag t) σ ∧
    ls `prefix_of` targets tag t ∧
    ls `sublist_of` locs t ∧
    Forall (λ l, ∃ s, s ∈ nodes t ∧ root s = l ∧ tree_tag s = tag) ls ∧
    ((∃ s'', r = Normal None s'') → ls = targets tag t).
Proof.
  intros Hrep Hun Hfr Htot Hfuel r. subst r.
  rewrite HandleCustomTag_logged by done.
  pose proof (called_prefix fn (targets tag t) σ) as Hpre.
  assert (Hfacts :
    called fn (targets tag t) σ `sublist_of` locs t ∧
    Forall (λ l, ∃ s, s ∈ nodes t ∧ root s = l ∧ tree_tag s = tag)
           (called fn (targets tag t) σ)).
  { split.
    - etrans; [|apply targets_sublist].
      destruct Hpre as [k Hk]. rewrite Hk at 2. by apply sublist_inserts_r.
    - rewrite Forall_forall. intros l Hl. apply (targets_match tag t).
      destruct Hpre as [k Hk]. rewrite Hk. set_solver. }
  destruct Hfacts as [Hsub Hall].
  destruct (resolve_each_total fn (targets tag t) σ Htot) as [σ1 H1].
  destruct (resolve_each fn (targets tag t) σ) as [e σ2|σ2|] eqn:Hrun;
    simpl in H1; try done.
  - eexists _, _. split_and!; try done.
    intros [σ'' Heq]. injection Heq as -> _. by eapply called_all.
  - eexists _, _. split_and!; try done.
    intros [σ'' Heq]. done.
Qed.

(** C2: when the first two targets of a tree-shaped document are [l1]
    and [l2], the resolver returns nil on [l1] and the error [e] on [l2],
    then [HandleCustomTag] returns [e] in the state the failing call left,
    the resolver was invoked on [l1] and [l2] only, and the cell the
    first call wrote at [l1] is still there. *)
Theorem error_on_second_match tag fn t fuel σ l1 l2 rest σ1 σ2 e :
  represents (heap σ) t → unshared t →
  frames fn (targets tag t) (locs t) →
  cost t ≤ fuel →
  targets tag t = l1 :: l2 :: rest →
  fn (Some l1) σ = Normal None σ1 →
  fn (Some l2) σ1 = Normal (Some e) σ2 →
  HandleCustomTag fuel (Some (root t)) tag fn σ = Normal (Some e) σ2 ∧
  HandleCustomTag fuel (Some (root t)) tag (logging fn) (with_log σ [])
    = Normal (Some e) (with_log σ2 [Some l1; Some l2]) ∧
  (∀ nd, heap σ1 !! l1 = Some nd → heap σ2 !! l1 = Some nd).
Proof.
  intros Hrep Hun Hfr Hfuel Htg H1 H2.
  assert (Hrun : resolve_each fn (targets tag t) σ = Normal (Some e) σ2).
  { rewrite Htg. unfold resolve_each. simpl. unfold bind. by rewrite H1, H2. }
  split_and!.
  - by rewrite HandleCustomTag_tree.
  - rewrite HandleCustomTag_logged by done. rewrite Hrun, Htg. simpl.
    by rewrite H1, H2.
  - intros nd Hnd. rewrite <- Hnd.
    pose proof (targets_NoDup tag t Hun) as Hdup. rewrite Htg in Hdup.
    apply (Hfr l2 σ1 σ2 l1).
    + rewrite Htg. set_solver.
    + by rewrite H2.
    + apply (targets_locs tag t). rewrite Htg. set_solver.
    + apply NoDup_cons in Hdup as [Hne _]. set_solver.
    + by rewrite Hnd.
Qed.

(** C5: on a tree-shaped document whose root does not carry the tag,
    the resolver is never invoked on a node in key position of a mapping
    nor on a descendant of such a key; when the root is a mapping, every
    invocation is on a node of one of its values (odd positions). *)
Theorem keys_never_resolved tag fn t fuel σ :
  represents (heap σ) t → unshared t →
  frames fn (targets tag t) (locs t) → total fn →
  cost t ≤ fuel →
  tree_tag t ≠ tag →
  ∃ s' : State (W * list ptr),
    final (HandleCustomTag fuel (Some (root t)) tag (logging fn) (with_log σ []))
      = Some s' ∧
    ∀ l, Some l ∈ calls s' →
      (l ∉ key_region t) ∧
      (tree_kind t = MappingNode → l ∈ flat_map locs (values (children t))).
Proof.
  intros Hrep Hun Hfr Htot Hfuel Hroot.
  rewrite HandleCustomTag_logged by done.
  pose proof (called_prefix fn (targets tag t) σ) as [k Hpre].
  assert (Hin : ∀ l, Some l ∈ map Some (called fn (targets tag t) σ) →
                     l ∈ targets tag t).
  { intros l Hl. apply list_elem_of_fmap in Hl as (l0 & [= <-] & Hl).
    rewrite Hpre. set_solver. }
  assert (Hgoal : ∀ l, l ∈ targets tag t →
    (l ∉ key_region t) ∧
    (tree_kind t = MappingNode → l ∈ flat_map locs (values (children t)))).
  { intros l Hl. split; [by apply (targets_not_keys tag)|].
    destruct t as [l0 k0 tg v kids]. simpl. intros ->.
    apply (targets_mapping_values tag l0 tg v); [|done].
    by apply String.eqb_neq. }
  destruct (resolve_each_total fn (targets tag t) σ Htot) as [σ1 H1].
  destruct (resolve_each fn (targets tag t) σ) as [e σ2|σ2|] eqn:Hrun;
    simpl in H1; try done; eexists; (split; [done|]); simpl; auto.
Qed.
End EngineClaims.

Section LoaderClaims.
Context {W E : Type} `{!FileSystem E, !Codec E}.
Implicit Types (σ : State W).

(** C1 (as amended): when every file below the named directory loads,
    [LoadIncludeDirNamedTag] replaces the tag node by a mapping with one
    pair for every entry below the directory, at any depth, that is not a
    directory, in the order of the walk: a directory entry adds no pair
    of its own, the files inside it do.  The value of a pair is the
    document [LoadFileFragment] returned for the file, which is nil for
    an empty file and for a file that holds a null ([pair_ok]). *)
Theorem include_dir_named_adds_files_at_any_depth n nd info fuel σ :
  heap σ !! n = Some nd → Tag nd = "!include_dir_named" →
  Lstat (Value nd) = inr info →
  within (S fuel) (Value nd) info = true →
  forallb loads (walk_files (Value nd) (S fuel) (Value nd) info) = true →
  ∃ pairs σ',
    LoadIncludeDirNamedTag (S fuel) (Some n) σ = Normal None σ' ∧
    heap σ' !! n = Some (mkNode MappingNode "!!map" EmptyString (pair_content pairs)) ∧
    Forall2 (pair_ok (heap σ) (heap σ'))
            (walk_files (Value nd) (S fuel) (Value nd) info) pairs ∧
    ∀ p, p ∈ walk_files (Value nd) (S fuel) (Value nd) info ↔
         ∃ d, reach (Value nd) info p d ∧ IsDir d = false ∧ p ≠ Value nd.
Proof.
  intros Hn Htag Hst Hin Hl.
  destruct (include_dir_named_ok n nd info (S fuel) σ Hn Hst Hin Hl)
    as (pairs & σ' & Hrun & Hnode & _ & _ & Hpairs).
  exists pairs, σ'. split_and!; try done.
  - unfold LoadIncludeDirNamedTag.
    by rewrite (HandleCustomTag_match fuel n nd _ _ σ Hn Htag).
  - intros p. by apply walk_files_reach.
Qed.

(** C7: for a directory that holds exactly the regular files [a.yaml]
    (content [1]) and [b.yaml] (content [2]), in that order of
    enumeration, resolution overwrites the tag node with a mapping tagged
    [!!map] whose children are the string scalar [a], the parsed scalar
    [1], the string scalar [b] and the parsed scalar [2]. *)
Theorem include_dir_named_two_files n nd info fuel σ d1 d2 tg1 tg2 :
  heap σ !! n = Some nd → Tag nd = "!include_dir_named" →
  Lstat (Value nd) = inr info → IsDir info = true →
  fst (ReadDir (Value nd))
    = [mkDirEntry "a.yaml" false; mkDirEntry "b.yaml" false] →
  Join (Value nd) "a.yaml" ≠ Value nd →
  Join (Value nd) "b.yaml" ≠ Value nd →
  Base (Join (Value nd) "a.yaml") = "a.yaml" →
  Base (Join (Value nd) "b.yaml") = "b.yaml" →
  ReadFile (Join (Value nd) "a.yaml") = inr d1 →
  parse d1 = Document (YNode ScalarNode tg1 "1" []) → tg1 ≠ nullTag →
  ReadFile (Join (Value nd) "b.yaml") = inr d2 →
  parse d2 = Document (YNode ScalarNode tg2 "2" []) → tg2 ≠ nullTag →
  ∃ ka fa kb fb σ',
    LoadIncludeDirNamedTag (S (S fuel)) (Some n) σ = Normal None σ' ∧
    heap σ' !! n = Some (mkNode MappingNode "!!map" EmptyString
                           [Some ka; Some fa; Some kb; Some fb]) ∧
    heap σ' !! ka = Some (mkNode ScalarNode "!!str" "a" []) ∧
    heap σ' !! fa = Some (mkNode ScalarNode tg1 "1" []) ∧
    heap σ' !! kb = Some (mkNode ScalarNode "!!str" "b" []) ∧
    heap σ' !! fb = Some (mkNode ScalarNode tg2 "2" []).
Proof.
  intros Hn Htag Hst Hdir Hls Hna Hnb Hba Hbb Hra Hpa Hta Hrb Hpb Htb.
  apply String.eqb_neq in Hna, Hnb.
  apply (fragment_of_document d1) in Hpa; [|done].
  apply (fragment_of_document d2) in Hpb; [|done].
  assert (Hfiles : walk_files (Value nd) (S (S fuel)) (Value nd) info
                   = [Join (Value nd) "a.yaml"; Join (Value nd) "b.yaml"]).
  { simpl. by rewrite Hdir, Hls; simpl; rewrite Hna, Hnb. }
  assert (Hin : within (S (S fuel)) (Value nd) info = true).
  { simpl. by rewrite Hdir, Hls. }
  assert (Hl : forallb loads (walk_files (Value nd) (S (S fuel)) (Value nd) info) = true).
  { rewrite Hfiles. unfold loads. simpl. by rewrite Hra, Hpa, Hrb, Hpb. }
  destruct (include_dir_named_ok n nd info (S (S fuel)) σ Hn Hst Hin Hl)
    as (pairs & σ' & Hrun & Hnode & _ & _ & Hpairs).
  assert (Hrun' : LoadIncludeDirNamedTag (S (S fuel)) (Some n) σ = Normal None σ').
  { unfold LoadIncludeDirNamedTag.
    by rewrite (HandleCustomTag_match (S fuel) n nd _ _ σ Hn Htag). }
  clear Hrun. rewrite Hfiles in Hpairs.
  apply Forall2_cons_inv_l in Hpairs as ([ka fa] & pairs1 & Hoka & Hpairs & ->).
  apply Forall2_cons_inv_l in Hpairs as ([kb fb] & pairs2 & Hokb & Hpairs & ->).
  apply Forall2_nil_inv_l in Hpairs as ->.
  destruct Hoka as (Hka & _ & da & Hra' & Hfa).
  destruct Hokb as (Hkb & _ & db & Hrb' & Hfb).
  rewrite Hra in Hra'. injection Hra' as <-. rewrite Hpa in Hfa.
  rewrite Hrb in Hrb'. injection Hrb' as <-. rewrite Hpb in Hfb.
  destruct Hfa as ([la ka' ta va kidsa] & Hfa & Hsa & Hrepa & _).
  destruct Hfb as ([lb kb' tb vb kidsb] & Hfb & Hsb & Hrepb & _).
  simpl in *. injection Hsa as -> -> -> Hkidsa. injection Hsb as -> -> -> Hkidsb.
  apply map_eq_nil in Hkidsa as ->. apply map_eq_nil in Hkidsb as ->.
  apply represents_T in Hrepa as [Hrepa _]. apply represents_T in Hrepb as [Hrepb _].
  subst fa fb. exists ka, la, kb, lb, σ'.
  rewrite Hba, fileNameWithoutExt_a_yaml in Hka.
  rewrite Hbb, fileNameWithoutExt_b_yaml in Hkb.
  by split_and!.
Qed.

(** C10: for a file name without a ['.'], [fileNameWithoutExt] returns
    the empty string; and when every file below the directory of an
    [!include_dir_named] node loads, [LoadIncludeDirNamedTag] replaces
    the node by the mapping of the pairs of the files, in which every
    file with such a base name has as key a string scalar whose value is
    the empty string, and as value the root of the document parsed from
    that file. *)
Theorem dotless_name_gives_empty_key name :
  (∀ i, String.get i name ≠ Some "."%char) →
  fileNameWithoutExt name = EmptyString ∧
  ∀ n nd info fuel σ,
    heap σ !! n = Some nd → Tag nd = "!include_dir_named" →
    Lstat (Value nd) = inr info →
    within (S fuel) (Value nd) info = true →
    forallb loads (walk_files (Value nd) (S fuel) (Value nd) info) = true →
    ∃ pairs σ',
      LoadIncludeDirNamedTag (S fuel) (Some n) σ = Normal None σ' ∧
      heap σ' !! n
        = Some (mkNode MappingNode "!!map" EmptyString
                  (flat_map (λ kf, [Some kf.1; kf.2]) pairs)) ∧
      Forall2
        (λ p (kf : loc * ptr),
           Base p = name →
           heap σ' !! kf.1 = Some (mkNode ScalarNode "!!str" EmptyString []) ∧
           ∀ data t,
             ReadFile p = inr data → parse data = Document t →
             ytag t ≠ nullTag →
             ∃ tt, kf.2 = Some (root tt) ∧ shape_of tt = t ∧
                   represents (heap σ') tt)
        (walk_files (Value nd) (S fuel) (Value nd) info) pairs.
Proof.
  intros Hno.
  assert (Hname : fileNameWithoutExt name = EmptyString)
    by by apply fileNameWithoutExt_from_no_dot.
  split; [done|].
  intros n nd info fuel σ Hn Htag Hst Hin Hl.
  destruct (include_dir_named_ok n nd info (S fuel) σ Hn Hst Hin Hl)
    as (pairs & σ' & Hrun & Hnode & _ & _ & Hpairs).
  exists pairs, σ'. split_and!.
  - unfold LoadIncludeDirNamedTag.
    by rewrite (HandleCustomTag_match fuel n nd _ _ σ Hn Htag).
  - exact Hnode.
  - eapply Forall2_impl; [exact Hpairs|].
    intros p kf (Hk & _ & data & Hr & Hf) Hb. split.
    + by rewrite Hb, Hname in Hk.
    + intros data' t Hr' Hp Ht. rewrite Hr in Hr'. injection Hr' as <-.
      rewrite (fragment_of_document data t Hp Ht) in Hf.
      destruct Hf as (tt & ? & ? & ? & _). by exists tt.
Qed.
End LoaderClaims.

Section EmptyFile.
Context {W E : Type} `{!FileSystem E, !Codec E}.
Implicit Types (σ : State W).

(** C9 (the code at the failing input): for a file whose bytes hold no
    document, [LoadFileFragment] returns a nil node together with a nil
    error, and [LoadIncludeTag] on a node that includes that file panics
    on the nil dereference. *)
Theorem empty_file_fragment_is_nil path data σ :
  ReadFile path = inr data → parse data = NoDocument →
  LoadFileFragment path σ = Normal (None, None) σ ∧
  ∀ fuel l nd,
    heap σ !! l = Some nd → Tag nd = "!include" → Value nd = path →
    LoadIncludeTag (S fuel) (Some l) σ = Panic σ.
Proof.
  intros Hr Hp. split; [by eapply LoadFileFragment_no_document|].
  intros fuel l nd Hl Htag Hval. unfold LoadIncludeTag.
  rewrite (HandleCustomTag_match fuel l nd _ _ σ Hl Htag).
  unfold include. unfold bind at 1. rewrite (load_at _ _ _ _ Hl), Hval.
  unfold bind at 1.
  by rewrite (LoadFileFragment_no_document path data σ Hr Hp).
Qed.
End EmptyFile.

Section EnsureListClaim.
Context {W : Type}.
Implicit Types (σ : State W).

(** C8: for a node [n] that is not a sequence, [EnsureList] returns a
    new sequence node whose single child is [n], and [n] is unchanged;
    for a sequence it returns [n] itself in the same state. *)
Theorem EnsureList_wraps_unless_sequence l nd σ :
  heap σ !! l = Some nd →
  (kind nd ≠ SequenceNode →
   ∃ l' nd' σ',
     EnsureList (Some l) σ = Normal (Some l') σ' ∧
     heap σ' !! l' = Some nd' ∧ kind nd' = SequenceNode ∧
     Content nd' = [Some l] ∧
     l' ≠ l ∧ heap σ' !! l = Some nd ∧ heap σ ⊆ heap σ') ∧
  (kind nd = SequenceNode → EnsureList (Some l) σ = Normal (Some l) σ).
Proof.
  intros Hl. unfold EnsureList.
  rewrite (bind_Normal _ _ _ _ _ (load_at kind l nd σ Hl)). split.
  - intros Hk.
    destruct (alloc_fresh (mkNode SequenceNode "!!seq" EmptyString [Some l]) σ)
      as (l' & Hal & Hfresh).
    exists l', (mkNode SequenceNode "!!seq" EmptyString [Some l]).
    eexists. split_and!.
    + destruct (kind nd); try done; exact Hal.
    + cbn [heap]. by rewrite lookup_insert_eq.
    + done.
    + done.
    + intros ->. congruence.
    + cbn [heap]. rewrite lookup_insert_ne; [done|]. intros ->. congruence.
    + cbn [heap]. by apply insert_subseteq.
  - by intros ->.
Qed.
End EnsureListClaim.

(** * The properties on concrete documents *)

Section Runs.
#[local] Existing Instances Demo.fs Demo.codec.
Import Demo.

Lemma no_match_leaves_document_unchanged_witness :
  HandleCustomTag 20 (Some 1%positive) "!include" resolver (state_of doc_plain)
    = Normal None (state_of doc_plain).
Proof.
  apply (no_match_leaves_document_unchanged "!include" resolver doc_plain 20
           (state_of doc_plain)); compute_done.
Defined.

(** The included file [again.yaml] holds a node that carries the tag
    itself; it is put in place and not looked at again. *)
Lemma matching_node_resolved_once_witness :
  let σ := state_of (scalar 1 "!include" "again.yaml") in
  heap (result_of (HandleCustomTag 5 (Some 1%positive) "!include" resolver σ))
    !! 1%positive = Some (mkNode ScalarNode "!include" "one.yaml" []) ∧
  HandleCustomTag 5 (Some 1%positive) "!include" resolver σ = resolver (Some 1%positive) σ ∧
  ∀ s' : State (unit * list ptr),
    final (HandleCustomTag 5 (Some 1%positive) "!include" (logging resolver)
             (with_log σ [])) = Some s' →
    calls s' = [Some 1%positive] ∧
    final (resolver (Some 1%positive) σ) = Some (erase s').
Proof.
  intros σ. split; [compute_done|].
  apply (matching_node_resolved_once 4 1%positive
           (mkNode ScalarNode "!include" "again.yaml" []) "!include" resolver σ);
    compute_done.
Defined.

(** [{a: !include one.yaml, b: !include two.yaml}]: the value of [a]
    (cell 3) is resolved before the value of [b] (cell 5). *)
Lemma resolver_calls_in_document_order_witness :
  ∃ s' : State (unit * list ptr),
    final (HandleCustomTag 20 (Some 1%positive) "!include" (logging resolver)
             (with_log (state_of doc_two_values) [])) = Some s' ∧
    calls s' = [Some 3%positive; Some 5%positive].
Proof.
  destruct (resolver_calls_in_document_order "!include" resolver doc_two_values 20
              (state_of doc_two_values))
    as (s' & ls & Hfin & Hcalls & Hls & _).
  - compute_done.
  - compute_done.
  - apply include_frames.
  - apply include_total.
  - compute_done.
  - exists s'. split; [exact Hfin|]. rewrite Hcalls, Hls. compute_done.
Defined.

(** [{a: !include one.yaml, b: !include gone.yaml, c: !include two.yaml}]:
    the second include fails, the first stays resolved, the third is not
    tried. *)
Lemma error_on_second_match_witness :
  HandleCustomTag 20 (Some 1%positive) "!include" resolver (state_of doc_second_fails)
    = Normal (Some (Other tt)) after_second ∧
  HandleCustomTag 20 (Some 1%positive) "!include" (logging resolver)
      (with_log (state_of doc_second_fails) [])
    = Normal (Some (Other tt))
        (with_log after_second [Some 3%positive; Some 5%positive]) ∧
  (∀ nd, heap after_first !! 3%positive = Some nd →
         heap after_second !! 3%positive = Some nd).
Proof.
  apply (error_on_second_match "!include" resolver doc_second_fails 20
           (state_of doc_second_fails) 3%positive 5%positive [7%positive]
           after_first after_second (Other tt));
    try compute_done.
  apply include_frames.
Defined.

(** [{!include one.yaml : !include two.yaml}]: the key (cell 2) carries
    the tag and is never handed to the resolver. *)
Lemma keys_never_resolved_witness :
  ∃ s' : State (unit * list ptr),
    final (HandleCustomTag 20 (Some 1%positive) "!include" (logging resolver)
             (with_log (state_of doc_tagged_key) [])) = Some s' ∧
    Some 2%positive ∉ calls s'.
Proof.
  destruct (keys_never_resolved "!include" resolver doc_tagged_key 20
              (state_of doc_tagged_key))
    as (s' & Hfin & Hkeys).
  - compute_done.
  - compute_done.
  - apply include_frames.
  - apply include_total.
  - compute_done.
  - compute_done.
  - exists s'. split; [exact Hfin|]. intros Hin.
    destruct (Hkeys 2%positive Hin) as [Hnot _]. apply Hnot. compute_done.
Defined.
End Runs.

Section LoaderRuns.
#[local] Existing Instances Demo.fs Demo.codec.
Import Demo.

(** The directory [conf] holds the file [a.yaml] and the directory
    [sub], which holds [c.yaml]: the mapping gets a pair for each of the
    two files. *)
Lemma include_dir_named_adds_files_at_any_depth_witness :
  ∃ pairs σ',
    LoadIncludeDirNamedTag 4 (Some 1%positive) conf_node = Normal None σ' ∧
    heap σ' !! 1%positive
      = Some (mkNode MappingNode "!!map" EmptyString (pair_content pairs)) ∧
    Forall2 (pair_ok (heap conf_node) (heap σ'))
            ["conf/a.yaml"; "conf/sub/c.yaml"] pairs ∧
    ∀ p, p ∈ walk_files "conf" 4 "conf" (mkDirEntry "conf" true) ↔
         ∃ d, reach "conf" (mkDirEntry "conf" true) p d ∧
              IsDir d = false ∧ p ≠ "conf".
Proof.
  destruct (include_dir_named_adds_files_at_any_depth (W:=unit) 1%positive
              (mkNode ScalarNode "!include_dir_named" "conf" [])
              (mkDirEntry "conf" true) 3 conf_node)
    as (pairs & σ' & Hrun & Hnode & Hpairs & Hreach); try compute_done.
  exists pairs, σ'. split_and!;
    [exact Hrun | exact Hnode | exact Hpairs | exact Hreach].
Defined.

(** C1 as stated fails on the directory [conf]: only [conf/a.yaml] is a
    regular file located directly in it, yet the mapping built has a
    second pair, keyed [c], for [conf/sub/c.yaml]. *)
Lemma subdirectory_file_contributes_a_pair :
  direct_files "conf" = ["conf/a.yaml"] ∧
  LoadIncludeDirNamedTag 4 (Some 1%positive) conf_node =
    Normal None
      (mkState
         {[ 1%positive := mkNode MappingNode "!!map" EmptyString
                            [Some 3%positive; Some 2%positive;
                             Some 5%positive; Some 4%positive];
            2%positive := mkNode ScalarNode "!!int" "1" [];
            3%positive := mkNode ScalarNode "!!str" "a" [];
            4%positive := mkNode ScalarNode "!!int" "3" [];
            5%positive := mkNode ScalarNode "!!str" "c" [] ]} tt) ∧
  ¬ only_direct_files 4 1%positive conf_node.
Proof.
  split; [compute_done|]. split; [compute_done|].
  intros Hclaim.
  destruct (Hclaim (mkNode ScalarNode "!include_dir_named" "conf" [])
              (result_of (LoadIncludeDirNamedTag 4 (Some 1%positive) conf_node))
              (mkNode MappingNode "!!map" EmptyString
                 [Some 3%positive; Some 2%positive;
                  Some 5%positive; Some 4%positive]))
    as (pairs & Hcontent & Hpairs); try compute_done.
  apply Forall2_length in Hpairs.
  assert (Hlen : length (pair_content pairs) = 2 * length pairs).
  { clear. induction pairs as [|kf pairs IH]; [done|].
    change (pair_content (kf :: pairs))
      with (Some kf.1 :: kf.2 :: pair_content pairs).
    simpl length. rewrite IH. lia. }
  rewrite <- Hcontent, <- Hpairs in Hlen. vm_compute in Hlen. discriminate.
Qed.

Lemma include_dir_named_two_files_witness :
  ∃ ka fa kb fb σ',
    LoadIncludeDirNamedTag 2 (Some 1%positive)
        (state_of (scalar 1 "!include_dir_named" "pair")) = Normal None σ' ∧
    heap σ' !! 1%positive
      = Some (mkNode MappingNode "!!map" EmptyString
                [Some ka; Some fa; Some kb; Some fb]) ∧
    heap σ' !! ka = Some (mkNode ScalarNode "!!str" "a" []) ∧
    heap σ' !! fa = Some (mkNode ScalarNode "!!int" "1" []) ∧
    heap σ' !! kb = Some (mkNode ScalarNode "!!str" "b" []) ∧
    heap σ' !! fb = Some (mkNode ScalarNode "!!int" "2" []).
Proof.
  apply (include_dir_named_two_files (W:=unit) 1%positive
           (mkNode ScalarNode "!include_dir_named" "pair" [])
           (mkDirEntry "pair" true) 0
           (state_of (scalar 1 "!include_dir_named" "pair"))
           "1" "2" "!!int" "!!int"); compute_done.
Defined.

Lemma Makefile_has_no_dot i : String.get i "Makefile" ≠ Some "."%char.
Proof. do 8 (destruct i as [|i]; [discriminate|]). discriminate. Qed.

(** The directory [tools] holds the single file [Makefile], with
    content [all]: the mapping has one pair, whose key is the empty
    string and whose value is the string scalar [all]. *)
Lemma dotless_name_gives_empty_key_witness :
  fileNameWithoutExt "Makefile" = EmptyString ∧
  ∃ k tt σ',
    LoadIncludeDirNamedTag 2 (Some 1%positive)
        (state_of (scalar 1 "!include_dir_named" "tools")) = Normal None σ' ∧
    heap σ' !! 1%positive
      = Some (mkNode MappingNode "!!map" EmptyString [Some k; Some (root tt)]) ∧
    heap σ' !! k = Some (mkNode ScalarNode "!!str" EmptyString []) ∧
    shape_of tt = YNode ScalarNode "!!str" "all" [] ∧
    represents (heap σ') tt.
Proof.
  destruct (dotless_name_gives_empty_key (W:=unit) "Makefile" Makefile_has_no_dot)
    as [Hname Hkey].
  split; [exact Hname|].
  destruct (Hkey 1%positive (mkNode ScalarNode "!include_dir_named" "tools" [])
              (mkDirEntry "tools" true) 1
              (state_of (scalar 1 "!include_dir_named" "tools")))
    as (pairs & σ' & Hrun & Hnode & Hpairs); try compute_done.
  change (walk_files "tools" 2 "tools" (mkDirEntry "tools" true))
    with ["tools/Makefile"] in Hpairs.
  apply Forall2_cons_inv_l in Hpairs as ([k f] & pairs1 & Hok & Hpairs & ->).
  apply Forall2_nil_inv_l in Hpairs as ->.
  destruct Hok as [Hk Hf]; [compute_done|].
  destruct (Hf "all" (YNode ScalarNode "!!str" "all" []))
    as (tt & Hroot & Hshape & Hrep); try compute_done.
  simpl in Hroot, Hnode. subst f.
  exists k, tt, σ'. split_and!; [exact Hrun|exact Hnode|exact Hk|exact Hshape|exact Hrep].
Defined.

(** Including the empty file [empty.yaml]. *)
Lemma empty_file_fragment_is_nil_witness :
  let σ := state_of (scalar 1 "!include" "empty.yaml") in
  LoadFileFragment "empty.yaml" σ = Normal (None, None) σ ∧
  LoadIncludeTag 3 (Some 1%positive) σ = Panic σ.
Proof.
  intros σ.
  destruct (empty_file_fragment_is_nil (W:=unit) "empty.yaml" EmptyString σ)
    as [Hload Hpanic]; [compute_done|compute_done|].
  split; [exact Hload|].
  apply (Hpanic 2 1%positive (mkNode ScalarNode "!include" "empty.yaml" []));
    compute_done.
Defined.

Lemma EnsureList_wraps_unless_sequence_witness :
  let σ := state_of (scalar 1 "!!str" "x") in
  ∃ l' nd' σ',
    EnsureList (Some 1%positive) σ = Normal (Some l') σ' ∧
    heap σ' !! l' = Some nd' ∧ kind nd' = SequenceNode ∧
    Content nd' = [Some 1%positive] ∧
    l' ≠ 1%positive ∧
    heap σ' !! 1%positive = Some (mkNode ScalarNode "!!str" "x" []) ∧
    heap σ ⊆ heap σ'.
Proof.
  intros σ.
  destruct (EnsureList_wraps_unless_sequence 1%positive
              (mkNode ScalarNode "!!str" "x" []) σ) as [Hwrap _];
    [compute_done|].
  apply Hwrap. discriminate.
Defined.
End LoaderRuns.

(** * Further properties of the loaders *)

Lemma get_append_left (a b : string) i :
  i < String.length a → String.get i (a ++ b)%string = String.get i a.
Proof. intros H. symmetry. by apply String.append_correct1. Qed.

Lemma get_append_right (a b : string) i :
  String.get (String.length a + i) (a ++ b)%string = String.get i b.
Proof. rewrite Nat.add_comm. symmetry. apply String.append_correct2. Qed.

Lemma length_append (a b : string) :
  String.length (a ++ b)%string = String.length a + String.length b.
Proof. induction a as [|c a IH]; simpl; [done|]. by rewrite IH. Qed.

Lemma substring_append_left (a b : string) :
  String.substring 0 (String.length a) (a ++ b)%string = a.
Proof.
  induction a as [|c a IH]; simpl; [by destruct b|]. by rewrite IH.
Qed.

Lemma prefix_substring (p : string) i :
  String.prefix (String.substring 0 i p) p = true.
Proof.
  revert i. induction p as [|c p IH]; intros [|i]; simpl; try done.
  rewrite IH. by destruct (ascii_dec c c).
Qed.

Lemma get_in_range (s : string) i :
  i < String.length s → ∃ c, String.get i s = Some c.
Proof.
  revert i. induction s as [|c s IH]; intros i Hi; simpl in Hi; [lia|].
  destruct i as [|i]; [by eexists|]. apply IH. lia.
Qed.

Section FileName.
Context {E : Type} `{!FileSystem E}.

Lemma dot_is_no_separator : IsPathSeparator "."%char = false.
Proof. unfold IsPathSeparator. by destruct windows. Qed.

(** The scan from the end of [a ++ c :: b] passes the characters of [b]
    when none of them is a dot or a separator. *)
Lemma fileNameWithoutExt_from_tail (a b : string) (c : ascii) j :
  (∀ i x, String.get i b = Some x →
          x ≠ "."%char ∧ IsPathSeparator x = false) →
  j ≤ String.length b →
  fileNameWithoutExt_from (a ++ String c b) (String.length a + 1 + j)
    = fileNameWithoutExt_from (a ++ String c b) (String.length a + 1).
Proof.
  intros Hb. induction j as [|j IH]; intros Hj; [by rewrite Nat.add_0_r|].
  replace (String.length a + 1 + S j) with (S (String.length a + S j)) by lia.
  cbn [fileNameWithoutExt_from].
  rewrite get_append_right. cbn [String.get].
  destruct (get_in_range b j) as [x Hx]; [lia|]. rewrite Hx.
  destruct (Hb j x Hx) as [Hdot Hsep]. rewrite Hsep.
  apply Ascii.eqb_neq in Hdot. rewrite Hdot.
  replace (String.length a + S j) with (String.length a + 1 + j) by lia.
  apply IH. lia.
Qed.

Lemma fileNameWithoutExt_at (a b : string) (c : ascii) :
  fileNameWithoutExt_from (a ++ String c b) (String.length a + 1)
    = if IsPathSeparator c then EmptyString
      else if Ascii.eqb c "."%char then a
      else fileNameWithoutExt_from (a ++ String c b) (String.length a).
Proof.
  replace (String.length a + 1) with (S (String.length a)) by lia.
  cbn [fileNameWithoutExt_from].
  replace (String.length a) with (String.length a + 0) at 1 by lia.
  rewrite get_append_right. cbn [String.get].
  by rewrite substring_append_left.
Qed.

(** X15: for a name [a ++ "." ++ b] where [b] holds no dot and no path
    separator, [fileNameWithoutExt] returns [a]: the name is cut at its
    last dot (so [a.tar.gz] gives [a.tar], and [.hidden] the empty
    string). *)
Theorem fileNameWithoutExt_cuts_at_last_dot (a b : string) :
  (∀ i x, String.get i b = Some x →
          x ≠ "."%char ∧ IsPathSeparator x = false) →
  fileNameWithoutExt (a ++ String "." b) = a.
Proof.
  intros Hb. unfold fileNameWithoutExt.
  rewrite length_append. cbn [String.length].
  replace (String.length a + S (String.length b))
    with (String.length a + 1 + String.length b) by lia.
  rewrite (fileNameWithoutExt_from_tail a b "." (String.length b) Hb) by lia.
  rewrite fileNameWithoutExt_at, dot_is_no_separator. done.
Qed.

(** X16: when a path separator is followed by no dot, the result is the
    empty string, whatever comes before the separator. *)
Theorem fileNameWithoutExt_separator_after_last_dot (a b : string) (c : ascii) :
  IsPathSeparator c = true →
  (∀ i, String.get i b ≠ Some "."%char) →
  fileNameWithoutExt (a ++ String c b) = EmptyString.
Proof.
  intros Hc Hb. unfold fileNameWithoutExt.
  rewrite length_append. cbn [String.length].
  replace (String.length a + S (String.length b))
    with (String.length a + 1 + String.length b) by lia.
  assert (Hgen : ∀ j, j ≤ String.length b →
    fileNameWithoutExt_from (a ++ String c b) (String.length a + 1 + j)
      = EmptyString).
  { induction j as [|j IH]; intros Hj.
    - rewrite Nat.add_0_r, fileNameWithoutExt_at. by rewrite Hc.
    - replace (String.length a + 1 + S j) with (S (String.length a + S j)) by lia.
      cbn [fileNameWithoutExt_from].
      rewrite get_append_right. cbn [String.get].
      destruct (get_in_range b j) as [x Hx]; [lia|]. rewrite Hx.
      destruct (IsPathSeparator x); [done|].
      destruct (Ascii.eqb x ".") eqn:Hdot.
      { apply Ascii.eqb_eq in Hdot as ->. by destruct (Hb j). }
      replace (String.length a + S j) with (String.length a + 1 + j) by lia.
      apply IH. lia. }
  by apply Hgen.
Qed.

Lemma fileNameWithoutExt_from_prefix (p : string) k :
  String.prefix (fileNameWithoutExt_from p k) p = true.
Proof.
  induction k as [|i IH]; cbn [fileNameWithoutExt_from]; [by destruct p|].
  destruct (String.get i p) as [c|]; [|by destruct p].
  destruct (IsPathSeparator c); [by destruct p|].
  destruct (Ascii.eqb c "."); [apply prefix_substring|apply IH].
Qed.

(** X17: the result of [fileNameWithoutExt] is always a prefix of its
    argument. *)
Theorem fileNameWithoutExt_is_prefix (p : string) :
  String.prefix (fileNameWithoutExt p) p = true.
Proof. apply fileNameWithoutExt_from_prefix. Qed.
End FileName.

Section EngineMore.
Context {W Err : Type}.
Implicit Types (fn : @TagProcessor W Err) (σ : State W) (t : tree).

Lemma called_app fn pre post σ σ1 :
  resolve_each fn pre σ = Normal None σ1 →
  called fn (pre ++ post) σ = pre ++ called fn post σ1.
Proof.
  revert σ. induction pre as [|l pre IH]; intros σ.
  - by intros [= <-].
  - unfold resolve_each. simpl. unfold bind.
    destruct (fn (Some l) σ) as [[e|] σ'|σ'|]; try done.
    intros H. f_equal. by apply IH.
Qed.

(** X2: on a tree-shaped document, when the resolver returns nil on the
    targets [pre] and then an error, or panics, on the next target [l],
    [HandleCustomTag] returns that error, or panics, in the state that
    call left; the resolver was invoked on [pre] and [l] and on no later
    target. *)
Theorem first_failure_ends_the_pass tag fn t fuel σ pre l post σ1 :
  represents (heap σ) t → unshared t →
  frames fn (targets tag t) (locs t) →
  cost t ≤ fuel →
  targets tag t = pre ++ l :: post →
  resolve_each fn pre σ = Normal None σ1 →
  (∀ e σ2, fn (Some l) σ1 = Normal (Some e) σ2 →
     HandleCustomTag fuel (Some (root t)) tag fn σ = Normal (Some e) σ2 ∧
     HandleCustomTag fuel (Some (root t)) tag (logging fn) (with_log σ [])
       = Normal (Some e) (with_log σ2 (map Some (pre ++ [l])))) ∧
  (∀ σ2, fn (Some l) σ1 = Panic σ2 →
     HandleCustomTag fuel (Some (root t)) tag fn σ = Panic σ2 ∧
     HandleCustomTag fuel (Some (root t)) tag (logging fn) (with_log σ [])
       = Panic (with_log σ2 (map Some (pre ++ [l])))).
Proof.
  intros Hrep Hun Hfr Hfuel Htg Hpre.
  rewrite HandleCustomTag_logged, HandleCustomTag_tree by done.
  rewrite Htg, resolve_each_app, Hpre, (called_app fn pre (l :: post) σ σ1 Hpre).
  unfold resolve_each. simpl. unfold bind.
  split.
  - intros e σ2 ->. done.
  - intros σ2 ->. done.
Qed.

(** X3: a node that does not carry the tag and is neither a sequence nor
    a mapping (a document, scalar or alias node) ends the descent: the
    result is nil, the state is unchanged and the resolver is not invoked,
    whatever the node's children are. *)
Theorem other_kinds_are_not_entered fuel l nd tag fn σ :
  heap σ !! l = Some nd → Tag nd ≠ tag →
  kind nd ≠ SequenceNode → kind nd ≠ MappingNode →
  HandleCustomTag (S fuel) (Some l) tag fn σ = Normal None σ ∧
  HandleCustomTag (S fuel) (Some l) tag (logging fn) (with_log σ [])
    = Normal None (with_log σ []).
Proof.
  intros Hl Htag Hseq Hmap. apply String.eqb_neq in Htag.
  split; rewrite HandleCustomTag_S; unfold bind.
  - rewrite (load_at _ _ _ _ Hl), Htag, (load_at _ _ _ _ Hl).
    by destruct (kind nd).
  - rewrite (load_at (W:=W * list ptr) Tag l nd (with_log σ []) Hl), Htag.
    rewrite (load_at (W:=W * list ptr) kind l nd (with_log σ []) Hl).
    by destruct (kind nd).
Qed.

Lemma HandleCustomTag_nil_child fuel l nd tag fn σ key rest :
  heap σ !! l = Some nd → Tag nd ≠ tag →
  (kind nd = SequenceNode ∧ Content nd = None :: rest) ∨
  (kind nd = MappingNode ∧ Content nd = key :: None :: rest) →
  HandleCustomTag (S (S (S fuel))) (Some l) tag fn σ = Panic σ.
Proof.
  intros Hl Htag Hshape. apply String.eqb_neq in Htag.
  rewrite HandleCustomTag_S. unfold bind at 1.
  rewrite (load_at _ _ _ _ Hl), Htag. unfold bind at 1.
  rewrite (load_at _ _ _ _ Hl).
  destruct Hshape as [[-> Hc]|[-> Hc]].
  - unfold bind at 1. rewrite (load_at _ _ _ _ Hl), Hc. done.
  - rewrite mapping_loop_S. unfold bind at 1.
    rewrite (load_at _ _ _ _ Hl), Hc. done.
Qed.

(** X4: a nil pointer as first item of a sequence, or as first value of
    a mapping, makes [HandleCustomTag] panic in the state it was given. *)
Theorem nil_child_panics fuel l nd tag fn σ key rest :
  heap σ !! l = Some nd → Tag nd ≠ tag →
  (kind nd = SequenceNode ∧ Content nd = None :: rest) ∨
  (kind nd = MappingNode ∧ Content nd = key :: None :: rest) →
  HandleCustomTag (S (S (S fuel))) (Some l) tag fn σ = Panic σ.
Proof. apply HandleCustomTag_nil_child. Qed.
End EngineMore.

Section IncludeMore.
Context {W E : Type} `{!FileSystem E, !Codec E}.
Implicit Types (σ : State W).

Lemma loads_false path :
  loads path = false →
  (∃ e, ReadFile path = inl e) ∨
  (∃ data e, ReadFile path = inr data ∧ fragment_of data = inl e).
Proof.
  unfold loads. destruct (ReadFile path) as [e|data]; [eauto|].
  destruct (fragment_of data) as [e|r] eqn:Hp; try done. right. eauto.
Qed.

Lemma LoadFileFragment_fails path σ :
  loads path = false →
  ∃ e, LoadFileFragment path σ = Normal (None, Some (Other e)) σ.
Proof.
  intros [[e Hr]|(data & e & Hr & Hp)]%loads_false; exists e.
  - by apply LoadFileFragment_read_error.
  - by eapply LoadFileFragment_decode_error.
Qed.

(** The resolver of [!include] on a file that holds a document. *)
Lemma include_grafts l nd data t σ :
  heap σ !! l = Some nd →
  ReadFile (Value nd) = inr data → fragment_of data = inr (Some t) →
  ∃ σ' tt,
    include (Some l) σ = Normal None σ' ∧
    root tt = l ∧ shape_of tt = t ∧ represents (heap σ') tt ∧ unshared tt ∧
    heap σ' !! l = Some (cell tt) ∧
    world σ' = world σ ∧
    (∀ l', l' ≠ l → is_Some (heap σ !! l') → heap σ' !! l' = heap σ !! l') ∧
    (∀ x, x ∈ locs tt → x ≠ l → heap σ !! x = None).
Proof.
  intros Hl Hr Hp.
  destruct (LoadFileFragment_fragment (Value nd) data t σ Hr Hp)
    as (l0 & σ1 & Hrun & Hsub & Hw & tt0 & Hroot & Hshape & Hrep & Hun & Hfresh).
  destruct tt0 as [l0' k tg v kids]. simpl in Hroot. subst l0'.
  unfold include.
  rewrite (bind_Normal _ _ _ _ _ (load_at Value l nd σ Hl)).
  rewrite (bind_Normal _ _ _ _ _ Hrun). cbn [fst snd].
  apply represents_T in Hrep as [Hl0 Hkids].
  unfold bind, deref, store, ret. rewrite Hl0.
  rewrite (lookup_weaken _ _ _ _ Hl Hsub).
  assert (Hlk : ∀ x, x ∈ flat_map locs kids → x ≠ l).
  { intros x Hx ->. specialize (Hfresh l). rewrite locs_T in Hfresh.
    rewrite Hfresh in Hl; [done|by apply list_elem_of_further]. }
  eexists _, (T l k tg v kids). split; [reflexivity|]. cbn [heap world].
  split_and!; try done.
  - apply represents_T. split; [by rewrite lookup_insert_eq|].
    rewrite Forall_forall in Hkids |- *. intros s Hs.
    apply (represents_agree (heap σ1)); [|by apply Hkids].
    intros x Hx. rewrite lookup_insert_ne; [done|].
    intros <-. apply (Hlk l); [|done]. apply elem_of_flat_map. eauto.
  - unfold unshared in *. rewrite locs_T in *.
    apply NoDup_cons in Hun as [_ Hnd]. apply NoDup_cons. split; [|done].
    intros Hin. by apply (Hlk l).
  - by rewrite lookup_insert_eq.
  - intros l' Hne [x Hx]. rewrite lookup_insert_ne by done.
    rewrite Hx. by eapply lookup_weaken.
  - intros x Hx Hne. rewrite locs_T in Hx.
    apply elem_of_cons in Hx as [->|Hx]; [done|].
    apply Hfresh. rewrite locs_T. by apply list_elem_of_further.
Qed.

(** The resolver of [!include] on a file that fails to load. *)
Lemma include_fails fuel l nd e σ :
  heap σ !! l = Some nd → Tag nd = "!include" →
  LoadFileFragment (Value nd) σ = Normal (None, Some (Other e)) σ →
  LoadIncludeTag (S fuel) (Some l) σ = Normal (Some (Other e)) σ.
Proof.
  intros Hl Htag Hrun. unfold LoadIncludeTag.
  rewrite (HandleCustomTag_match fuel l nd _ _ σ Hl Htag). unfold include.
  rewrite (bind_Normal _ _ _ _ _ (load_at Value l nd σ Hl)).
  by rewrite (bind_Normal _ _ _ _ _ Hrun).
Qed.

(** X6: when the file named by an [!include] node cannot be read, does
    not parse, or holds a null that the decoder rejects, [LoadIncludeTag]
    returns the very error [os.ReadFile], the parser or the decoder gave,
    and the state is the one it was given. *)
Theorem failed_include_changes_nothing fuel l nd σ :
  heap σ !! l = Some nd → Tag nd = "!include" →
  (∀ e, ReadFile (Value nd) = inl e →
     LoadIncludeTag (S fuel) (Some l) σ = Normal (Some (Other e)) σ) ∧
  (∀ data e, ReadFile (Value nd) = inr data → parse data = ParseError e →
     LoadIncludeTag (S fuel) (Some l) σ = Normal (Some (Other e)) σ) ∧
  (∀ data t e, ReadFile (Value nd) = inr data → parse data = Document t →
     ytag t = nullTag → decode_struct t = inl e →
     LoadIncludeTag (S fuel) (Some l) σ = Normal (Some (Other e)) σ).
Proof.
  intros Hl Htag. split_and!.
  - intros e Hr. apply (include_fails fuel l nd e σ Hl Htag).
    by apply LoadFileFragment_read_error.
  - intros data e Hr Hp. apply (include_fails fuel l nd e σ Hl Htag).
    by eapply LoadFileFragment_parse_error.
  - intros data t e Hr Hp Ht Hd. apply (include_fails fuel l nd e σ Hl Htag).
    apply (LoadFileFragment_decode_error _ data); [done|].
    unfold fragment_of. rewrite Hp. apply String.eqb_eq in Ht. by rewrite Ht.
Qed.

(** X7: when the file named by an [!include] node holds a document
    whose root is not tagged [!!null], [LoadIncludeTag] returns nil and
    the node's cell is the root of an unshared tree holding that
    document; every other cell that existed is unchanged. *)
Theorem include_replaces_node_by_document fuel l nd data t σ :
  heap σ !! l = Some nd → Tag nd = "!include" →
  ReadFile (Value nd) = inr data → parse data = Document t →
  ytag t ≠ nullTag →
  ∃ σ' tt,
    LoadIncludeTag (S fuel) (Some l) σ = Normal None σ' ∧
    root tt = l ∧ shape_of tt = t ∧ represents (heap σ') tt ∧ unshared tt ∧
    (∀ l', l' ≠ l → is_Some (heap σ !! l') → heap σ' !! l' = heap σ !! l').
Proof.
  intros Hl Htag Hr Hp Ht.
  destruct (include_grafts l nd data t σ Hl Hr (fragment_of_document _ _ Hp Ht))
    as (σ' & tt & Hrun & ? & ? & ? & ? & _ & _ & ? & _).
  exists σ', tt. split_and!; try done. unfold LoadIncludeTag.
  by rewrite (HandleCustomTag_match fuel l nd _ _ σ Hl Htag).
Qed.

(** X8: when the included file holds itself an [!include] node, one pass
    of [LoadIncludeTag] leaves that inner node in place, still tagged, and
    a second pass replaces it by the document of the inner file (whose
    root is not tagged [!!null]). *)
Theorem nested_include_takes_a_second_pass fuel l nd d1 path2 d2 t σ :
  heap σ !! l = Some nd → Tag nd = "!include" →
  ReadFile (Value nd) = inr d1 →
  parse d1 = Document (YNode ScalarNode "!include" path2 []) →
  ReadFile path2 = inr d2 → parse d2 = Document t → ytag t ≠ nullTag →
  ∃ σ1 σ2 tt,
    LoadIncludeTag (S fuel) (Some l) σ = Normal None σ1 ∧
    heap σ1 !! l = Some (mkNode ScalarNode "!include" path2 []) ∧
    LoadIncludeTag (S fuel) (Some l) σ1 = Normal None σ2 ∧
    root tt = l ∧ shape_of tt = t ∧ represents (heap σ2) tt.
Proof.
  intros Hl Htag Hr1 Hp1 Hr2 Hp2 Ht.
  apply fragment_of_document in Hp1; [|done].
  apply fragment_of_document in Hp2; [|done].
  destruct (include_grafts l nd d1 _ σ Hl Hr1 Hp1)
    as (σ1 & tt1 & Hrun1 & Hroot1 & Hshape1 & _ & _ & Hcell1 & _ & _ & _).
  destruct tt1 as [l1 k1 tg1 v1 kids1]. simpl in Hroot1, Hshape1. subst l1.
  injection Hshape1 as -> -> -> Hk. apply map_eq_nil in Hk as ->.
  simpl in Hcell1.
  destruct (include_grafts l _ d2 t σ1 Hcell1 Hr2 Hp2)
    as (σ2 & tt & Hrun2 & ? & ? & ? & _).
  exists σ1, σ2, tt. unfold LoadIncludeTag.
  rewrite (HandleCustomTag_match fuel l nd _ _ σ Hl Htag).
  rewrite (HandleCustomTag_match fuel l _ _ _ σ1 Hcell1 eq_refl).
  by split_and!.
Qed.

(** X5: [LoadFileFragment] always returns, and keeps every cell of the
    store; with a non-nil error the node is nil and the state unchanged;
    a non-nil node comes with a nil error and is the root of a document
    built in new cells: the document parsed from the file, unless the
    root of that one is tagged [!!null], in which case it is what the
    decoder put into the fragment. *)
Theorem LoadFileFragment_contract path σ :
  ∃ n err σ',
    LoadFileFragment path σ = Normal (n, err) σ' ∧
    heap σ ⊆ heap σ' ∧ world σ' = world σ ∧
    (err ≠ None → n = None ∧ σ' = σ ∧ loads path = false) ∧
    (∀ l, n = Some l →
       err = None ∧
       ∃ data t0 t,
         ReadFile path = inr data ∧ parse data = Document t0 ∧
         (if String.eqb (ytag t0) nullTag
          then decode_struct t0 = inr (Some t) else t = t0) ∧
         built σ t l σ').
Proof.
  unfold loads.
  destruct (ReadFile path) as [e|data] eqn:Hr.
  { eexists _, _, _. split; [by apply LoadFileFragment_read_error|].
    by split_and!. }
  destruct (fragment_of data) as [e|[t|]] eqn:Hf.
  - eexists _, _, _. split; [by eapply LoadFileFragment_decode_error|].
    by split_and!.
  - destruct (LoadFileFragment_fragment path data t σ Hr Hf)
      as (l & σ' & Hrun & Hb).
    pose proof Hb as (Hsub & Hw & _).
    eexists _, _, _. split; [exact Hrun|]. split_and!; try done.
    intros l' [= <-]. split; [done|].
    unfold fragment_of in Hf. destruct (parse data) as [e| |t0] eqn:Hp; try done.
    exists data, t0, t. split_and!; try done.
    destruct (String.eqb (ytag t0) nullTag); [done|congruence].
  - eexists _, _, _. split; [by eapply LoadFileFragment_nil|].
    by split_and!.
Qed.
End IncludeMore.

Section DirMore.
Context {W E : Type} `{!FileSystem E, !Codec E}.
Implicit Types (σ : State W).

(** The state in which the tag node [n] has become the empty mapping. *)
Lemma include_dir_named_nothing_found n nd fuel σ :
  heap σ !! n = Some nd →
  WalkDir fuel (Value nd) (include_dir_walk_fn (Some n))
      (mkState (heap σ) (world σ, @nil ptr))
    = Normal None (mkState (heap σ) (world σ, @nil ptr)) →
  include_dir_named fuel (Some n) σ
    = Normal None
        (mkState (<[n := mkNode MappingNode "!!map" EmptyString []]> (heap σ))
                 (world σ)).
Proof.
  intros Hn Hwalk. unfold include_dir_named.
  rewrite (bind_Normal _ _ _ _ _ (load_at Value n nd σ Hn)).
  unfold bind at 1, with_local. rewrite Hwalk. cbn [fst snd heap world].
  unfold bind, store. cbn [heap world]. by rewrite Hn.
Qed.

(** X11: when [os.Lstat] fails on the path of an [!include_dir_named]
    node, or [os.ReadDir] fails on it without entries, the failure is not
    reported: the node becomes an empty mapping and the error is nil. *)
Theorem unreadable_directory_gives_empty_mapping n nd fuel σ :
  heap σ !! n = Some nd → Tag nd = "!include_dir_named" →
  (∃ e, Lstat (Value nd) = inl e) ∨
  (∃ info e, Lstat (Value nd) = inr info ∧ IsDir info = true ∧
             ReadDir (Value nd) = ([], Some e)) →
  LoadIncludeDirNamedTag (S fuel) (Some n) σ
    = Normal None
        (mkState (<[n := mkNode MappingNode "!!map" EmptyString []]> (heap σ))
                 (world σ)).
Proof.
  intros Hn Htag Hcase. unfold LoadIncludeDirNamedTag.
  rewrite (HandleCustomTag_match fuel n nd _ _ σ Hn Htag).
  apply (include_dir_named_nothing_found n nd); [done|].
  set (s := mkState (heap σ) (world σ, @nil ptr)).
  assert (Hskip : ∀ d err,
    include_dir_walk_fn (Some n) (Value nd) d err s = Normal None s).
  { intros d err. unfold include_dir_walk_fn.
    rewrite (bind_Normal _ _ _ _ _ (load_at Value n nd s Hn)).
    by rewrite String.eqb_refl. }
  unfold WalkDir.
  destruct Hcase as [[e Hst]|(info & e & Hst & Hdir & Hls)]; rewrite Hst.
  - by rewrite (bind_Normal _ _ _ _ _ (Hskip None _)).
  - assert (Hwd : walkDir (S fuel) (Value nd) info (include_dir_walk_fn (Some n)) s
                  = Normal None s).
    { cbn [walkDir]. rewrite (bind_Normal _ _ _ _ _ (Hskip (Some info) None)).
      rewrite Hdir, Hls. cbn [fst snd not_nil orb negb].
      unfold bind at 1.
      rewrite (bind_Normal _ _ _ _ _ (Hskip (Some info) (Some (Other e)))).
      done. }
    by rewrite (bind_Normal _ _ _ _ _ Hwd).
Qed.

(** X12: when the path of an [!include_dir_named] node names a regular
    file, the node becomes an empty mapping and the error is nil; nothing
    else in the state changes. *)
Theorem regular_file_gives_empty_mapping n nd info fuel σ :
  heap σ !! n = Some nd → Tag nd = "!include_dir_named" →
  Lstat (Value nd) = inr info → IsDir info = false →
  LoadIncludeDirNamedTag (S fuel) (Some n) σ
    = Normal None
        (mkState (<[n := mkNode MappingNode "!!map" EmptyString []]> (heap σ))
                 (world σ)).
Proof.
  intros Hn Htag Hst Hdir. unfold LoadIncludeDirNamedTag.
  rewrite (HandleCustomTag_match fuel n nd _ _ σ Hn Htag).
  apply (include_dir_named_nothing_found n nd); [done|].
  set (s := mkState (heap σ) (world σ, @nil ptr)).
  rewrite (WalkDir_add_files n nd info (S fuel) s Hn Hst).
  - simpl. by rewrite Hdir, String.eqb_refl.
  - simpl. by rewrite Hdir.
Qed.

Lemma add_file_fails path (s : State (W * list ptr)) :
  loads path = false →
  ∃ e, add_file path s = Normal (Some (Other e)) s.
Proof.
  intros Hl. destruct (LoadFileFragment_fails path s Hl) as [e Hrun].
  exists e. unfold add_file. by rewrite (bind_Normal _ _ _ _ _ Hrun).
Qed.

(** X13: when the files [ok] of the walk load and the next file [p] does
    not, [LoadIncludeDirNamedTag] returns an error, the tag node is left
    as it was, and every cell that existed is kept. *)
Theorem failing_file_ends_the_walk n nd info fuel σ ok p rest :
  heap σ !! n = Some nd → Tag nd = "!include_dir_named" →
  Lstat (Value nd) = inr info →
  within (S fuel) (Value nd) info = true →
  walk_files (Value nd) (S fuel) (Value nd) info = ok ++ p :: rest →
  forallb loads ok = true → loads p = false →
  ∃ e σ',
    LoadIncludeDirNamedTag (S fuel) (Some n) σ = Normal (Some (Other e)) σ' ∧
    heap σ' !! n = Some nd ∧ heap σ ⊆ heap σ' ∧ world σ' = world σ.
Proof.
  intros Hn Htag Hst Hin Hfiles Hok Hp. unfold LoadIncludeDirNamedTag.
  rewrite (HandleCustomTag_match fuel n nd _ _ σ Hn Htag).
  unfold include_dir_named.
  rewrite (bind_Normal _ _ _ _ _ (load_at Value n nd σ Hn)).
  set (s0 := mkState (heap σ) (world σ, @nil ptr)).
  destruct (add_files_ok (W:=W) ok s0 Hok) as (pairs & s1 & Hrun & Hsub & Hw & _).
  destruct (add_file_fails p s1 Hp) as [e Hfail].
  assert (Hwalk : WalkDir (S fuel) (Value nd) (include_dir_walk_fn (Some n)) s0
                  = Normal (Some (Other e)) s1).
  { rewrite (WalkDir_add_files n nd info (S fuel) s0 Hn Hst Hin), Hfiles.
    rewrite add_files_app, Hrun. simpl.
    by rewrite (bind_Normal _ _ _ _ _ Hfail). }
  unfold bind, with_local. fold s0. rewrite Hwalk. cbn [fst snd]. unfold ret.
  exists e. eexists. split; [reflexivity|]. cbn [heap world].
  split_and!; [by eapply lookup_weaken|done|by rewrite Hw].
Qed.

(** A directory whose only file gives a nil fragment. *)
Lemma nil_fragment_leaves_nil_value n nd info fuel σ name data :
  heap σ !! n = Some nd → Tag nd = "!include_dir_named" →
  Lstat (Value nd) = inr info → IsDir info = true →
  fst (ReadDir (Value nd)) = [mkDirEntry name false] →
  Join (Value nd) name ≠ Value nd →
  ReadFile (Join (Value nd) name) = inr data → fragment_of data = inr None →
  ∃ k σ',
    LoadIncludeDirNamedTag (S (S fuel)) (Some n) σ = Normal None σ' ∧
    heap σ' !! n = Some (mkNode MappingNode "!!map" EmptyString [Some k; None]) ∧
    heap σ' !! k = Some (mkNode ScalarNode "!!str"
                           (fileNameWithoutExt (Base (Join (Value nd) name))) []) ∧
    ∀ (Err' : Type) tag (fn : @TagProcessor W Err') fuel',
      tag ≠ "!!map" →
      HandleCustomTag (S (S (S fuel'))) (Some n) tag fn σ' = Panic σ'.
Proof.
  intros Hn Htag Hst Hdir Hls Hne Hr Hp.
  apply String.eqb_neq in Hne.
  assert (Hfiles : walk_files (Value nd) (S (S fuel)) (Value nd) info
                   = [Join (Value nd) name]).
  { simpl. by rewrite Hdir, Hls; simpl; rewrite Hne. }
  assert (Hin : within (S (S fuel)) (Value nd) info = true).
  { simpl. by rewrite Hdir, Hls. }
  assert (Hl : forallb loads (walk_files (Value nd) (S (S fuel)) (Value nd) info) = true).
  { rewrite Hfiles. unfold loads. simpl. by rewrite Hr, Hp. }
  destruct (include_dir_named_ok n nd info (S (S fuel)) σ Hn Hst Hin Hl)
    as (pairs & σ' & Hrun & Hnode & _ & _ & Hpairs).
  rewrite Hfiles in Hpairs.
  apply Forall2_cons_inv_l in Hpairs as ([k f] & pairs1 & Hok & Hpairs & ->).
  apply Forall2_nil_inv_l in Hpairs as ->.
  destruct Hok as (Hk & _ & data' & Hr' & Hf).
  rewrite Hr in Hr'. injection Hr' as <-. rewrite Hp in Hf. simpl in Hf. subst f.
  exists k, σ'. split_and!.
  - unfold LoadIncludeDirNamedTag.
    by rewrite (HandleCustomTag_match (S fuel) n nd _ _ σ Hn Htag).
  - exact Hnode.
  - exact Hk.
  - intros Err' tag fn fuel' Htg.
    apply (HandleCustomTag_nil_child fuel' n _ tag fn σ' (Some k) [] Hnode); [done|].
    right. done.
Qed.

Lemma fragment_of_null data t :
  parse data = Document t → ytag t = nullTag → decode_struct t = inr None →
  fragment_of data = inr None.
Proof.
  unfold fragment_of. intros -> Ht ->. apply String.eqb_eq in Ht.
  by rewrite Ht.
Qed.

(** X14: for a directory whose only file holds no document, the tag node
    becomes a mapping whose single value is a nil pointer, and every later
    pass of [HandleCustomTag] over that node (for a tag other than
    [!!map]) panics. *)
Theorem empty_file_leaves_nil_value n nd info fuel σ name data :
  heap σ !! n = Some nd → Tag nd = "!include_dir_named" →
  Lstat (Value nd) = inr info → IsDir info = true →
  fst (ReadDir (Value nd)) = [mkDirEntry name false] →
  Join (Value nd) name ≠ Value nd →
  ReadFile (Join (Value nd) name) = inr data → parse data = NoDocument →
  ∃ k σ',
    LoadIncludeDirNamedTag (S (S fuel)) (Some n) σ = Normal None σ' ∧
    heap σ' !! n = Some (mkNode MappingNode "!!map" EmptyString [Some k; None]) ∧
    ∀ (Err' : Type) tag (fn : @TagProcessor W Err') fuel',
      tag ≠ "!!map" →
      HandleCustomTag (S (S (S fuel'))) (Some n) tag fn σ' = Panic σ'.
Proof.
  intros Hn Htag Hst Hdir Hls Hne Hr Hp.
  destruct (nil_fragment_leaves_nil_value n nd info fuel σ name data)
    as (k & σ' & Hrun & Hnode & _ & Hlater); try done.
  { unfold fragment_of. by rewrite Hp. }
  by exists k, σ'.
Qed.

(** X19: a file that holds a null ([~], [null]: a document whose root is
    tagged [!!null], which the decoder does not hand to [UnmarshalYAML]
    and which sets no field of the fragment) gives a nil node with a nil
    error, and [LoadIncludeTag] on a node that includes it panics on the
    nil dereference, in the state it was given. *)
Theorem null_document_include_panics path data t σ :
  ReadFile path = inr data → parse data = Document t →
  ytag t = nullTag → decode_struct t = inr None →
  LoadFileFragment path σ = Normal (None, None) σ ∧
  ∀ fuel l nd,
    heap σ !! l = Some nd → Tag nd = "!include" → Value nd = path →
    LoadIncludeTag (S fuel) (Some l) σ = Panic σ.
Proof.
  intros Hr Hp Ht Hd.
  pose proof (LoadFileFragment_nil path data σ Hr
                (fragment_of_null data t Hp Ht Hd)) as Hload.
  split; [done|].
  intros fuel l nd Hl Htag Hval. unfold LoadIncludeTag.
  rewrite (HandleCustomTag_match fuel l nd _ _ σ Hl Htag).
  unfold include. unfold bind at 1. rewrite (load_at _ _ _ _ Hl), Hval.
  unfold bind at 1. by rewrite Hload.
Qed.

(** X20: for a directory whose only file holds a null, the tag node
    becomes a mapping whose single value is a nil pointer (not a null
    scalar), and every later pass of [HandleCustomTag] over that node
    (for a tag other than [!!map]) panics. *)
Theorem null_file_leaves_nil_value n nd info fuel σ name data t :
  heap σ !! n = Some nd → Tag nd = "!include_dir_named" →
  Lstat (Value nd) = inr info → IsDir info = true →
  fst (ReadDir (Value nd)) = [mkDirEntry name false] →
  Join (Value nd) name ≠ Value nd →
  ReadFile (Join (Value nd) name) = inr data → parse data = Document t →
  ytag t = nullTag → decode_struct t = inr None →
  ∃ k σ',
    LoadIncludeDirNamedTag (S (S fuel)) (Some n) σ = Normal None σ' ∧
    heap σ' !! n = Some (mkNode MappingNode "!!map" EmptyString [Some k; None]) ∧
    heap σ' !! k = Some (mkNode ScalarNode "!!str"
                           (fileNameWithoutExt (Base (Join (Value nd) name))) []) ∧
    ∀ (Err' : Type) tag (fn : @TagProcessor W Err') fuel',
      tag ≠ "!!map" →
      HandleCustomTag (S (S (S fuel'))) (Some n) tag fn σ' = Panic σ'.
Proof.
  intros Hn Htag Hst Hdir Hls Hne Hr Hp Ht Hd.
  apply (nil_fragment_leaves_nil_value n nd info fuel σ name data); try done.
  by apply (fragment_of_null data t).
Qed.

(** X10: on a tree-shaped document, a pass of [LoadIncludeTag] or of
    [LoadIncludeDirNamedTag] leaves every existing cell that is not one of
    its targets as it was: keys, untagged nodes and cells outside the
    document are neither changed nor removed. *)
Theorem loaders_change_only_target_nodes t fuel σ :
  represents (heap σ) t → unshared t → cost t ≤ fuel →
  (∀ σ' l',
     final (LoadIncludeTag fuel (Some (root t)) σ) = Some σ' →
     l' ∉ targets "!include" t → is_Some (heap σ !! l') →
     heap σ' !! l' = heap σ !! l') ∧
  (∀ σ' l',
     final (LoadIncludeDirNamedTag fuel (Some (root t)) σ) = Some σ' →
     l' ∉ targets "!include_dir_named" t → is_Some (heap σ !! l') →
     heap σ' !! l' = heap σ !! l').
Proof.
  intros Hrep Hun Hfuel. split; intros σ' l' Hfin Hnot Hin.
  - rewrite LoadIncludeTag_on_tree in Hfin by done.
    apply (resolve_each_frame include (targets "!include" t)
             (targets "!include" t) [l'] σ σ' l');
      [apply include_frames|done|done|set_solver|done|done].
  - rewrite LoadIncludeDirNamedTag_on_tree in Hfin by done.
    apply (resolve_each_frame (include_dir_named fuel)
             (targets "!include_dir_named" t)
             (targets "!include_dir_named" t) [l'] σ σ' l');
      [apply include_dir_named_frames|done|done|set_solver|done|done].
Qed.
End DirMore.

Section ExpandStore.
Context (tag : string) (doc : string → ytree).
Context (h h' : gmap loc Node) (Tgt : list loc).
Hypothesis replaced :
  ∀ l nd, l ∈ Tgt → h !! l = Some nd →
    ∃ tt, root tt = l ∧ shape_of tt = doc (Value nd) ∧ represents h' tt.
Hypothesis kept :
  ∀ l', l' ∉ Tgt → is_Some (h !! l') → h' !! l' = h !! l'.

Lemma kept_subtree s :
  represents h s → (∀ x, x ∈ locs s → x ∉ Tgt) → represents h' s.
Proof.
  intros Hrep Hno. apply (represents_agree h); [|done].
  intros x Hx. apply kept; [by apply Hno|by eapply represents_dom].
Qed.


Lemma expands_items kids :
  Forall (expands tag doc h h' Tgt) kids →
  Forall (represents h) kids → NoDup (flat_map locs kids) →
  (∀ x, x ∈ flat_map locs kids →
        (x ∈ Tgt ↔ x ∈ flat_map (targets tag) kids)) →
  ∃ kids', map root kids' = map root kids ∧
           map shape_of kids' = map (expand tag doc) (map shape_of kids) ∧
           Forall (represents h') kids'.
Proof.
  induction 1 as [|s kids Hs _ IH]; intros Hrep Hnd Htgt.
  { exists []. by split_and!. }
  apply Forall_cons in Hrep as [Hreps Hrep]. simpl in Hnd, Htgt.
  apply NoDup_app in Hnd as (Hnds & Hdisj & Hndk).
  destruct Hs as (tt & Hroot & Hshape & Hrtt); [done|done| |].
  { intros x Hx. rewrite (Htgt x) by set_solver. rewrite elem_of_app.
    split; [|by left]. intros [?|Hin]; [done|].
    exfalso. apply (Hdisj x Hx).
    apply elem_of_flat_map in Hin as (s' & Hs' & Hin).
    apply elem_of_flat_map. exists s'. split; [done|by apply (targets_locs tag)]. }
  destruct IH as (kids' & Hroots & Hshapes & Hreps'); [done|done| |].
  { intros x Hx. rewrite (Htgt x) by set_solver. rewrite elem_of_app.
    split; [|by right]. intros [Hin|?]; [|done].
    exfalso. apply (Hdisj x); [by apply (targets_locs tag)|done]. }
  exists (tt :: kids'). simpl. split_and!; [congruence|congruence|by constructor].
Qed.

Lemma expands_values kids :
  Forall (expands tag doc h h' Tgt) kids →
  Forall (represents h) kids → NoDup (flat_map locs kids) →
  (∀ x, x ∈ flat_map locs kids →
        (x ∈ Tgt ↔ x ∈ on_values (targets tag) kids)) →
  ∃ kids', map root kids' = map root kids ∧
           map shape_of kids' = map_values (expand tag doc) (map shape_of kids) ∧
           Forall (represents h') kids'.
Proof.
  induction kids as [| k | k v kids IH] using list_ind_pairs;
    intros Hall Hrep Hnd Htgt.
  - exists []. by split_and!.
  - exists [k]. split_and!; [done|done|].
    apply Forall_cons in Hrep as [Hk _]. constructor; [|done].
    apply kept_subtree; [done|]. intros x Hx. rewrite (Htgt x); simpl; set_solver.
  - apply Forall_cons in Hall as [_ Hall]. apply Forall_cons in Hall as [Hv Hall].
    apply Forall_cons in Hrep as [Hrk Hrep]. apply Forall_cons in Hrep as [Hrv Hrep].
    simpl in Hnd, Htgt.
    apply NoDup_app in Hnd as (Hndk & Hdk & Hnd).
    apply NoDup_app in Hnd as (Hndv & Hdv & Hnd).
    assert (Hrest : ∀ x, x ∈ on_values (targets tag) kids → x ∈ flat_map locs kids).
    { intros x. rewrite on_values_flat_map, !elem_of_flat_map.
      intros (s & Hs & Hx). exists s.
      split; [by apply values_subseteq|by apply (targets_locs tag)]. }
    assert (Hkey : represents h' k).
    { apply kept_subtree; [done|]. intros x Hx. rewrite (Htgt x) by set_solver.
      rewrite elem_of_app. intros [Hin|Hin]; apply (Hdk x Hx).
      - apply elem_of_app. left. by apply (targets_locs tag).
      - apply elem_of_app. right. by apply Hrest. }
    destruct Hv as (tt & Hroot & Hshape & Hrtt); [done|done| |].
    { intros x Hx. rewrite (Htgt x) by set_solver. rewrite elem_of_app.
      split; [|by left]. intros [?|Hin]; [done|].
      exfalso. apply (Hdv x Hx). by apply Hrest. }
    destruct IH as (kids' & Hroots & Hshapes & Hreps'); [done|done|done| |].
    { intros x Hx. rewrite (Htgt x) by set_solver. rewrite elem_of_app.
      split; [|by right]. intros [Hin|?]; [|done].
      exfalso. apply (Hdv x); [by apply (targets_locs tag)|done]. }
    exists (k :: tt :: kids'). simpl.
    split_and!; [congruence|congruence|by repeat constructor].
Qed.

Lemma expands_all s : expands tag doc h h' Tgt s.
Proof.
  induction s as [l k tg v kids IH] using tree_ind_kids.
  intros Hrep Hnd Htgt.
  pose proof Hrep as Hrep0.
  apply represents_T in Hrep as [Hl Hkids]. rewrite locs_T in Hnd, Htgt.
  apply NoDup_cons in Hnd as [Hlnot Hnd].
  simpl in Htgt |- *. destruct (String.eqb tg tag) eqn:Htag.
  { destruct (replaced l _ (proj2 (Htgt l ltac:(set_solver)) ltac:(set_solver)) Hl)
      as (tt & ? & ? & ?).
    by exists tt. }
  assert (Hroot : h' !! l = Some (cell (T l k tg v kids))).
  { rewrite kept; [done| |by rewrite Hl].
    rewrite (Htgt l) by set_solver. intros Hin. apply Hlnot.
    destruct k; try (by apply elem_of_nil in Hin).
    - apply elem_of_flat_map in Hin as (s & Hs & Hin).
      apply elem_of_flat_map. exists s. split; [done|by apply (targets_locs tag)].
    - rewrite on_values_flat_map in Hin.
      apply elem_of_flat_map in Hin as (s & Hs & Hin).
      apply elem_of_flat_map. exists s.
      split; [by apply values_subseteq|by apply (targets_locs tag)]. }
  assert (Hsame : ∀ kids',
    map root kids' = map root kids → Forall (represents h') kids' →
    represents h' (T l k tg v kids')).
  { intros kids' Hroots Hreps. apply represents_T. split; [|done].
    rewrite Hroot. simpl. do 2 f_equal.
    rewrite <- !(map_map root Some). by rewrite Hroots. }
  destruct k.
  - exists (T l DocumentNode tg v kids). split_and!; [done|done|].
    apply kept_subtree; [done|]. intros x Hx. rewrite locs_T in Hx.
    rewrite (Htgt x Hx). apply not_elem_of_nil.
  - destruct (expands_items kids IH Hkids Hnd) as (kids' & Hroots & Hshapes & Hreps).
    { intros x Hx. apply Htgt. set_solver. }
    exists (T l SequenceNode tg v kids'). simpl.
    split_and!; [done|by rewrite Hshapes|by apply Hsame].
  - destruct (expands_values kids IH Hkids Hnd) as (kids' & Hroots & Hshapes & Hreps).
    { intros x Hx. apply Htgt. set_solver. }
    exists (T l MappingNode tg v kids'). simpl.
    split_and!; [done|by rewrite Hshapes|by apply Hsame].
  - exists (T l ScalarNode tg v kids). split_and!; [done|done|].
    apply kept_subtree; [done|]. intros x Hx. rewrite locs_T in Hx.
    rewrite (Htgt x Hx). apply not_elem_of_nil.
  - exists (T l AliasNode tg v kids). split_and!; [done|done|].
    apply kept_subtree; [done|]. intros x Hx. rewrite locs_T in Hx.
    rewrite (Htgt x Hx). apply not_elem_of_nil.
Qed.
End ExpandStore.

Section Grafting.
Context {W Err : Type}.
Implicit Types (fn : @TagProcessor W Err) (σ : State W).

(** Resolving a list of distinct nodes with a resolver that grafts. *)
Lemma resolve_each_grafts fn doc good ls :
  grafts fn doc good → NoDup ls →
  ∀ σ,
    (∀ l, l ∈ ls → ∃ nd, heap σ !! l = Some nd ∧ good nd) →
    ∃ σ',
      resolve_each fn ls σ = Normal None σ' ∧
      world σ' = world σ ∧
      (∀ l nd, l ∈ ls → heap σ !! l = Some nd →
         ∃ tt, root tt = l ∧ shape_of tt = doc (Value nd) ∧
               represents (heap σ') tt) ∧
      (∀ l', l' ∉ ls → is_Some (heap σ !! l') → heap σ' !! l' = heap σ !! l').
Proof.
  intros Hgr. induction 1 as [|l ls Hl _ IH]; intros σ Hgood.
  { exists σ. split_and!; try done. intros l nd Hin. by apply elem_of_nil in Hin. }
  destruct (Hgood l) as (nd & Hnd & Hg); [set_solver|].
  destruct (Hgr l nd σ Hnd Hg)
    as (σ1 & tt1 & Hrun & Hroot & Hshape & Hrep & Hw & Hkeep & Hfresh).
  assert (Hin_dom : ∀ l2, l2 ∈ ls → is_Some (heap σ !! l2)).
  { intros l2 Hl2. destruct (Hgood l2) as (nd2 & -> & _); [set_solver|eauto]. }
  assert (Hsame : ∀ l2, l2 ∈ ls → heap σ1 !! l2 = heap σ !! l2).
  { intros l2 Hl2. apply Hkeep; [|by apply Hin_dom]. intros ->. done. }
  destruct (IH σ1) as (σ' & Hrun' & Hw' & Hdone & Hrest).
  { intros l2 Hl2. destruct (Hgood l2) as (nd2 & Hnd2 & Hg2); [set_solver|].
    exists nd2. by rewrite Hsame. }
  exists σ'. split_and!.
  - unfold resolve_each in *. simpl. by rewrite (bind_Normal _ _ _ _ _ Hrun).
  - congruence.
  - intros l0 nd0 [->|Hl0]%elem_of_cons Hnd0.
    + rewrite Hnd in Hnd0. injection Hnd0 as <-.
      exists tt1. split_and!; [done|done|].
      apply (represents_agree (heap σ1)); [|done].
      intros x Hx. apply Hrest; [|by eapply represents_dom].
      intros Hxls. destruct (decide (x = l)) as [->|Hne]; [done|].
      destruct (Hin_dom x Hxls) as [? Hsome]. by rewrite (Hfresh x Hx Hne) in Hsome.
    + apply Hdone; [done|]. by rewrite Hsame.
  - intros l' Hnot [x Hx].
    rewrite Hrest; [|set_solver|].
    + apply Hkeep; [set_solver|by rewrite Hx].
    + rewrite Hkeep; [by rewrite Hx|set_solver|by rewrite Hx].
Qed.

(** With a resolver that grafts documents, the engine computes [expand]. *)
Lemma HandleCustomTag_expands fn tag doc good t fuel σ :
  grafts fn doc good →
  frames fn (targets tag t) (locs t) →
  represents (heap σ) t → unshared t → cost t ≤ fuel →
  (∀ s, s ∈ nodes t → root s ∈ targets tag t → good (cell s)) →
  ∃ σ' tt,
    HandleCustomTag fuel (Some (root t)) tag fn σ = Normal None σ' ∧
    root tt = root t ∧
    shape_of tt = expand tag doc (shape_of t) ∧
    represents (heap σ') tt ∧
    world σ' = world σ.
Proof.
  intros Hgr Hfr Hrep Hun Hfuel Hgood.
  assert (Hcells : ∀ l, l ∈ targets tag t →
            ∃ nd, heap σ !! l = Some nd ∧ good nd).
  { intros l Hl. destruct (targets_match _ _ _ Hl) as (s & Hs & <- & _).
    exists (cell s). split; [|by apply Hgood].
    unfold represents in Hrep. rewrite Forall_forall in Hrep. by apply Hrep. }
  destruct (resolve_each_grafts fn doc good (targets tag t) Hgr
              (targets_NoDup _ _ Hun) σ Hcells)
    as (σ' & Hrun & Hw & Hdone & Hrest).
  destruct (expands_all tag doc (heap σ) (heap σ') (targets tag t)
              Hdone Hrest t Hrep Hun) as (tt & Hroot & Hshape & Hrtt); [done|].
  exists σ', tt. split_and!; try done.
  by rewrite HandleCustomTag_tree.
Qed.
End Grafting.

Section Passes.
Context {W E : Type} `{!FileSystem E, !Codec E}.
Implicit Types (σ : State W).

Lemma document_of_Some path d :
  document_of path = Some d →
  ∃ data, ReadFile path = inr data ∧ fragment_of data = inr (Some d).
Proof.
  unfold document_of. destruct (ReadFile path) as [e|data]; [done|].
  destruct (fragment_of data) as [e|r] eqn:Hp; try done. intros ->. eauto.
Qed.

Lemma has_document_loads path : has_document path = true → loads path = true.
Proof.
  unfold has_document, document_of, loads.
  destruct (ReadFile path) as [e|data]; [done|]. by destruct (fragment_of data).
Qed.

(** The pairs built for files that all hold a document are trees. *)
Lemma pairs_are_trees h0 h files pairs :
  Forall2 (pair_ok h0 h) files pairs →
  forallb has_document files = true →
  ∃ kids,
    map (λ s, Some (root s)) kids = pair_content pairs ∧
    map shape_of kids = flat_map pair_document files ∧
    Forall (represents h) kids ∧
    (∀ x, x ∈ flat_map locs kids → h0 !! x = None).
Proof.
  induction 1 as [|p kf files pairs Hok _ IH]; intros Hdocs.
  { exists []. split_and!; try done. intros x Hx. by apply elem_of_nil in Hx. }
  simpl in Hdocs. apply andb_prop in Hdocs as [Hdoc Hdocs].
  destruct (IH Hdocs) as (kids & Hroots & Hshapes & Hreps & Hfresh).
  destruct Hok as (Hk & Hk0 & data & Hr & Hp).
  unfold has_document, document_of in Hdoc. rewrite Hr in Hdoc.
  destruct (fragment_of data) as [e|[t|]] eqn:Hparse; try done.
  destruct Hp as (tt & Hroot & Hshape & Hrep & _ & Hnew).
  exists (T kf.1 ScalarNode "!!str" (fileNameWithoutExt (Base p)) [] :: tt :: kids).
  split_and!.
  - simpl. unfold pair_content in *. simpl. by rewrite Hroots, Hroot.
  - simpl. rewrite Hshapes, Hshape. unfold pair_document at 2, document_of.
    by rewrite Hr, Hparse.
  - constructor; [|by constructor].
    apply represents_T. split; [done|constructor].
  - intros x. simpl. rewrite elem_of_cons, elem_of_app.
    intros [->|[Hx|Hx]]; [done|by apply Hnew|by apply Hfresh].
Qed.

Lemma include_dir_named_grafts fuel :
  grafts (W:=W) (include_dir_named fuel) (dir_document fuel)
         (λ nd, dir_ready fuel (Value nd) = true).
Proof.
  intros l nd σ Hnd Hready. unfold dir_ready in Hready.
  destruct (Lstat (Value nd)) as [e|info] eqn:Hst; [done|].
  apply andb_prop in Hready as [Hin Hdocs].
  destruct (include_dir_named_ok l nd info fuel σ Hnd Hst Hin)
    as (pairs & σ' & Hrun & Hnode & Hw & Hkeep & Hoks).
  { rewrite forallb_forall in Hdocs |- *. intros p Hp.
    by apply has_document_loads, Hdocs. }
  destruct (pairs_are_trees _ _ _ _ Hoks Hdocs)
    as (kids & Hroots & Hshapes & Hreps & Hfresh).
  exists σ', (T l MappingNode "!!map" EmptyString kids).
  split_and!; try done.
  - simpl. unfold dir_document. by rewrite Hst, Hshapes.
  - apply represents_T. split; [|done]. simpl. by rewrite Hroots.
  - intros x. rewrite locs_T, elem_of_cons. intros [->|Hx] Hne; [done|].
    by apply Hfresh.
Qed.

(** X18: on a tree-shaped document all of whose [!include_dir_named]
    targets name a directory that can be walked and whose files all give
    a document ([document_of]: the file is read and decoded and the
    fragment is not nil, so it is neither empty nor a null),
    [LoadIncludeDirNamedTag] returns nil and the store then holds, at the
    same root, the document [expand] describes: each target replaced by
    the mapping of the files below its directory, everything else as it
    was. *)
Theorem LoadIncludeDirNamedTag_expands_document t fuel σ :
  represents (heap σ) t → unshared t → cost t ≤ fuel →
  (∀ s, s ∈ nodes t → root s ∈ targets "!include_dir_named" t →
        dir_ready fuel (tree_value s) = true) →
  ∃ σ' tt,
    LoadIncludeDirNamedTag fuel (Some (root t)) σ = Normal None σ' ∧
    root tt = root t ∧
    shape_of tt = expand "!include_dir_named" (dir_document fuel) (shape_of t) ∧
    represents (heap σ') tt ∧
    world σ' = world σ.
Proof.
  intros Hrep Hun Hfuel Hready. unfold LoadIncludeDirNamedTag.
  apply (HandleCustomTag_expands _ _ _ (λ nd, dir_ready fuel (Value nd) = true));
    auto using include_dir_named_grafts, include_dir_named_frames.
  intros [l k tg v kids] Hs Hl. by apply (Hready (T l k tg v kids)).
Qed.

Lemma include_is_graft (doc : string → ytree) :
  grafts (W:=W) include doc (λ nd, document_of (Value nd) = Some (doc (Value nd))).
Proof.
  intros l nd σ Hnd Hdoc.
  destruct (document_of_Some _ _ Hdoc) as (data & Hr & Hp).
  destruct (include_grafts l nd data _ σ Hnd Hr Hp)
    as (σ1 & tt1 & Hrun & Hroot & Hshape & Hrep & _ & _ & Hw & Hkeep & Hfresh).
  by exists σ1, tt1.
Qed.

(** X9: on a tree-shaped document all of whose [!include] targets name
    files that give a document ([document_of]: the file is read and
    decoded and the fragment is not nil, so it is neither empty nor a
    null), [LoadIncludeTag] returns nil and the store then holds, at the
    same root, the document [expand] describes: each target replaced by
    the document of its file, everything else as it was. *)
Theorem LoadIncludeTag_expands_document (doc : string → ytree) t fuel σ :
  represents (heap σ) t → unshared t → cost t ≤ fuel →
  (∀ s, s ∈ nodes t → root s ∈ targets "!include" t →
        document_of (tree_value s) = Some (doc (tree_value s))) →
  ∃ σ' tt,
    LoadIncludeTag fuel (Some (root t)) σ = Normal None σ' ∧
    root tt = root t ∧
    shape_of tt = expand "!include" doc (shape_of t) ∧
    represents (heap σ') tt ∧
    world σ' = world σ.
Proof.
  intros Hrep Hun Hfuel Hdocs. unfold LoadIncludeTag.
  apply (HandleCustomTag_expands _ _ _
           (λ nd, document_of (Value nd) = Some (doc (Value nd))));
    auto using include_is_graft, include_frames.
  intros [l k tg v kids] Hs Hl. by apply (Hdocs (T l k tg v kids)).
Qed.
End Passes.

(** * The further properties on concrete documents *)

Section EngineRuns.
#[local] Existing Instances Demo.fs Demo.codec.
Import Demo.

Lemma engine_state_is_resolver_made_witness :
  replay resolver [Some 3%positive; Some 5%positive] (state_of doc_second_fails)
    = Some after_second.
Proof.
  apply (engine_state_is_resolver_made resolver "!include" 20 (Some 1%positive)
           (state_of doc_second_fails)
           (with_log after_second [Some 3%positive; Some 5%positive])).
  compute_done.
Defined.

Lemma first_failure_ends_the_pass_witness :
  HandleCustomTag 20 (Some 1%positive) "!include" resolver
      (state_of doc_second_fails)
    = Normal (Some (Other tt)) after_second ∧
  HandleCustomTag 20 (Some 1%positive) "!include" (logging resolver)
      (with_log (state_of doc_second_fails) [])
    = Normal (Some (Other tt))
        (with_log after_second [Some 3%positive; Some 5%positive]).
Proof.
  destruct (first_failure_ends_the_pass "!include" resolver doc_second_fails 20
              (state_of doc_second_fails) [3%positive] 5%positive [7%positive]
              after_first) as [Herr _]; try compute_done.
  { apply include_frames. }
  apply (Herr (Other tt) after_second). compute_done.
Defined.

(** The [!include] below a document node is not resolved. *)
Lemma other_kinds_are_not_entered_witness :
  HandleCustomTag 5 (Some 1%positive) "!include" resolver
      (state_of Demo2.doc_under_document)
    = Normal None (state_of Demo2.doc_under_document) ∧
  HandleCustomTag 5 (Some 1%positive) "!include" (logging resolver)
      (with_log (state_of Demo2.doc_under_document) [])
    = Normal None (with_log (state_of Demo2.doc_under_document) []).
Proof.
  apply (other_kinds_are_not_entered 4 1%positive
           (mkNode DocumentNode EmptyString EmptyString [Some 2%positive])
           "!include" resolver (state_of Demo2.doc_under_document));
    compute_done.
Defined.

Lemma nil_child_panics_witness :
  HandleCustomTag 3 (Some 1%positive) "!include" resolver Demo2.nil_item
    = Panic Demo2.nil_item.
Proof.
  apply (nil_child_panics 0 1%positive
           (mkNode SequenceNode "!!seq" EmptyString [None])
           "!include" resolver Demo2.nil_item None []); [compute_done..|].
  left. by split.
Defined.

(** There is no file [gone.yaml]: the error of [ReadFile] comes back. *)
Lemma failed_include_changes_nothing_witness :
  ReadFile "gone.yaml" = inl tt ∧
  LoadIncludeTag 5 (Some 1%positive) (state_of (scalar 1 "!include" "gone.yaml"))
    = Normal (Some (Other tt)) (state_of (scalar 1 "!include" "gone.yaml")).
Proof.
  split; [reflexivity|].
  destruct (failed_include_changes_nothing (W:=unit) 4 1%positive
              (mkNode ScalarNode "!include" "gone.yaml" [])
              (state_of (scalar 1 "!include" "gone.yaml")))
    as (Hread & _ & _); [compute_done|compute_done|].
  apply Hread. reflexivity.
Defined.

Lemma include_replaces_node_by_document_witness :
  ∃ σ' tt,
    LoadIncludeTag 5 (Some 1%positive) (state_of (scalar 1 "!include" "one.yaml"))
      = Normal None σ' ∧
    root tt = 1%positive ∧
    shape_of tt = YNode ScalarNode "!!int" "1" [] ∧
    represents (heap σ') tt ∧ unshared tt ∧
    (∀ l', l' ≠ 1%positive →
           is_Some (heap (state_of (scalar 1 "!include" "one.yaml")) !! l') →
           heap σ' !! l' = heap (state_of (scalar 1 "!include" "one.yaml")) !! l').
Proof.
  apply (include_replaces_node_by_document (W:=unit) 4 1%positive
           (mkNode ScalarNode "!include" "one.yaml" []) "1");
    compute_done.
Defined.

Lemma nested_include_takes_a_second_pass_witness :
  ∃ σ1 σ2 tt,
    LoadIncludeTag 5 (Some 1%positive) (state_of (scalar 1 "!include" "again.yaml"))
      = Normal None σ1 ∧
    heap σ1 !! 1%positive = Some (mkNode ScalarNode "!include" "one.yaml" []) ∧
    LoadIncludeTag 5 (Some 1%positive) σ1 = Normal None σ2 ∧
    root tt = 1%positive ∧
    shape_of tt = YNode ScalarNode "!!int" "1" [] ∧
    represents (heap σ2) tt.
Proof.
  apply (nested_include_takes_a_second_pass (W:=unit) 4 1%positive
           (mkNode ScalarNode "!include" "again.yaml" [])
           "!include one.yaml" "one.yaml" "1");
    compute_done.
Defined.

(** [{a: !include one.yaml, b: !include two.yaml}] becomes [{a: 1, b: 2}]. *)
Lemma LoadIncludeTag_expands_document_witness :
  ∃ σ' tt,
    LoadIncludeTag 20 (Some 1%positive) (state_of doc_two_values)
      = Normal None σ' ∧
    root tt = 1%positive ∧
    shape_of tt
      = YNode MappingNode "!!map" EmptyString
          [YNode ScalarNode "!!str" "a" []; YNode ScalarNode "!!int" "1" [];
           YNode ScalarNode "!!str" "b" []; YNode ScalarNode "!!int" "2" []] ∧
    represents (heap σ') tt.
Proof.
  destruct (LoadIncludeTag_expands_document (W:=unit) Demo2.doc doc_two_values 20
              (state_of doc_two_values))
    as (σ' & tt & Hrun & Hroot & Hshape & Hrep & _); try compute_done.
  - intros s Hs Ht.
    apply list_elem_of_In in Hs. apply list_elem_of_In in Ht.
    vm_compute in Hs. vm_compute in Ht.
    destruct Hs as [<-|[<-|[<-|[<-|[<-|[]]]]]];
      first [ compute_done | exfalso; intuition discriminate ].
  - exists σ', tt. split_and!; [exact Hrun|exact Hroot| |exact Hrep].
    rewrite Hshape. compute_done.
Defined.

(** [[x, !include_dir_named conf]] becomes [[x, {a: 1, c: 3}]]. *)
Lemma LoadIncludeDirNamedTag_expands_document_witness :
  ∃ σ' tt,
    LoadIncludeDirNamedTag 20 (Some 1%positive) (state_of Demo2.doc_with_dir)
      = Normal None σ' ∧
    root tt = 1%positive ∧
    shape_of tt
      = YNode SequenceNode "!!seq" EmptyString
          [YNode ScalarNode "!!str" "x" [];
           YNode MappingNode "!!map" EmptyString
             [YNode ScalarNode "!!str" "a" []; YNode ScalarNode "!!int" "1" [];
              YNode ScalarNode "!!str" "c" []; YNode ScalarNode "!!int" "3" []]] ∧
    represents (heap σ') tt.
Proof.
  destruct (LoadIncludeDirNamedTag_expands_document (W:=unit) Demo2.doc_with_dir 20
              (state_of Demo2.doc_with_dir))
    as (σ' & tt & Hrun & Hroot & Hshape & Hrep & _); try compute_done.
  - intros s Hs Ht.
    apply list_elem_of_In in Hs. apply list_elem_of_In in Ht.
    vm_compute in Hs. vm_compute in Ht.
    destruct Hs as [<-|[<-|[<-|[]]]];
      first [ compute_done | exfalso; intuition discriminate ].
  - exists σ', tt. split_and!; [exact Hrun|exact Hroot| |exact Hrep].
    rewrite Hshape. compute_done.
Defined.

Lemma loaders_change_only_target_nodes_witness :
  (∀ σ' l',
     final (LoadIncludeTag 20 (Some 1%positive) (state_of doc_second_fails))
       = Some σ' →
     l' ∉ [3%positive; 5%positive; 7%positive] →
     is_Some (heap (state_of doc_second_fails) !! l') →
     heap σ' !! l' = heap (state_of doc_second_fails) !! l') ∧
  (∀ σ' l',
     final (LoadIncludeDirNamedTag 20 (Some 1%positive) (state_of doc_second_fails))
       = Some σ' →
     l' ∉ [] →
     is_Some (heap (state_of doc_second_fails) !! l') →
     heap σ' !! l' = heap (state_of doc_second_fails) !! l').
Proof.
  apply (loaders_change_only_target_nodes (W:=unit) doc_second_fails 20
           (state_of doc_second_fails)); compute_done.
Defined.

Lemma unreadable_directory_gives_empty_mapping_witness :
  LoadIncludeDirNamedTag 3 (Some 1%positive)
      (state_of (scalar 1 "!include_dir_named" "nowhere"))
    = Normal None
        (mkState {[ 1%positive := mkNode MappingNode "!!map" EmptyString [] ]} tt).
Proof.
  rewrite (unreadable_directory_gives_empty_mapping (W:=unit) 1%positive
             (mkNode ScalarNode "!include_dir_named" "nowhere" []) 2
             (state_of (scalar 1 "!include_dir_named" "nowhere")));
    [compute_done..|].
  left. exists tt. compute_done.
Defined.

Lemma regular_file_gives_empty_mapping_witness :
  LoadIncludeDirNamedTag 3 (Some 1%positive)
      (state_of (scalar 1 "!include_dir_named" "one.yaml"))
    = Normal None
        (mkState {[ 1%positive := mkNode MappingNode "!!map" EmptyString [] ]} tt).
Proof.
  rewrite (regular_file_gives_empty_mapping (W:=unit) 1%positive
             (mkNode ScalarNode "!include_dir_named" "one.yaml" [])
             (mkDirEntry "one.yaml" false) 2
             (state_of (scalar 1 "!include_dir_named" "one.yaml")));
    compute_done.
Defined.

Lemma gz_is_plain i x :
  String.get i "gz" = Some x → x ≠ "."%char ∧ IsPathSeparator x = false.
Proof.
  do 2 (destruct i as [|i]; [intros [= <-]; by split|]). discriminate.
Qed.

Lemma fileNameWithoutExt_cuts_at_last_dot_witness :
  fileNameWithoutExt "a.tar.gz" = "a.tar".
Proof. apply (fileNameWithoutExt_cuts_at_last_dot "a.tar" "gz" gz_is_plain). Defined.

Lemma fileNameWithoutExt_separator_after_last_dot_witness :
  fileNameWithoutExt "conf.d/Makefile" = EmptyString.
Proof.
  apply (fileNameWithoutExt_separator_after_last_dot "conf.d" "Makefile" "/");
    [compute_done|].
  intros i. do 8 (destruct i as [|i]; [discriminate|]). discriminate.
Defined.
End EngineRuns.

Section BrokenRuns.
#[local] Existing Instances Demo2.fs Demo.codec.
Import Demo.

(** [broken/b.yaml] is listed but cannot be read: [a.yaml] was loaded,
    [c.yaml] is not tried, the tag node stays. *)
Lemma failing_file_ends_the_walk_witness :
  ∃ e σ',
    LoadIncludeDirNamedTag 3 (Some 1%positive)
        (state_of (scalar 1 "!include_dir_named" "broken"))
      = Normal (Some (Other e)) σ' ∧
    heap σ' !! 1%positive
      = Some (mkNode ScalarNode "!include_dir_named" "broken" []) ∧
    heap (state_of (scalar 1 "!include_dir_named" "broken")) ⊆ heap σ' ∧
    world σ' = tt.
Proof.
  apply (failing_file_ends_the_walk (W:=unit) 1%positive
           (mkNode ScalarNode "!include_dir_named" "broken" [])
           (mkDirEntry "broken" true) 2
           (state_of (scalar 1 "!include_dir_named" "broken"))
           ["broken/a.yaml"] "broken/b.yaml" ["broken/c.yaml"]);
    compute_done.
Defined.

Lemma empty_file_leaves_nil_value_witness :
  ∃ k σ',
    LoadIncludeDirNamedTag 2 (Some 1%positive)
        (state_of (scalar 1 "!include_dir_named" "hollow")) = Normal None σ' ∧
    heap σ' !! 1%positive
      = Some (mkNode MappingNode "!!map" EmptyString [Some k; None]) ∧
    HandleCustomTag 3 (Some 1%positive) "!include" (@include unit unit Demo2.fs codec) σ'
      = Panic σ'.
Proof.
  destruct (empty_file_leaves_nil_value (W:=unit) 1%positive
              (mkNode ScalarNode "!include_dir_named" "hollow" [])
              (mkDirEntry "hollow" true) 0
              (state_of (scalar 1 "!include_dir_named" "hollow"))
              "empty.yaml" EmptyString)
    as (k & σ' & Hrun & Hnode & Hpanic); try compute_done.
  exists k, σ'. split_and!; [exact Hrun|exact Hnode|].
  apply Hpanic. discriminate.
Defined.

(** Including [null.yaml], which holds [~]. *)
Lemma null_document_include_panics_witness :
  let σ := state_of (scalar 1 "!include" "null.yaml") in
  LoadFileFragment "null.yaml" σ = Normal (None, None) σ ∧
  LoadIncludeTag 3 (Some 1%positive) σ = Panic σ.
Proof.
  intros σ.
  destruct (null_document_include_panics (W:=unit) "null.yaml" "~"
              (YNode ScalarNode "!!null" "~" []) σ)
    as [Hload Hpanic]; try compute_done.
  split; [exact Hload|].
  apply (Hpanic 2 1%positive (mkNode ScalarNode "!include" "null.yaml" []));
    compute_done.
Defined.

(** The directory [void] holds the single file [null.yaml]. *)
Lemma null_file_leaves_nil_value_witness :
  ∃ k σ',
    LoadIncludeDirNamedTag 2 (Some 1%positive)
        (state_of (scalar 1 "!include_dir_named" "void")) = Normal None σ' ∧
    heap σ' !! 1%positive
      = Some (mkNode MappingNode "!!map" EmptyString [Some k; None]) ∧
    heap σ' !! k = Some (mkNode ScalarNode "!!str" "null" []) ∧
    HandleCustomTag 3 (Some 1%positive) "!include" (@include unit unit Demo2.fs codec) σ'
      = Panic σ'.
Proof.
  destruct (null_file_leaves_nil_value (W:=unit) 1%positive
              (mkNode ScalarNode "!include_dir_named" "void" [])
              (mkDirEntry "void" true) 0
              (state_of (scalar 1 "!include_dir_named" "void"))
              "null.yaml" "~" (YNode ScalarNode "!!null" "~" []))
    as (k & σ' & Hrun & Hnode & Hkey & Hpanic); try compute_done.
  exists k, σ'. split_and!; [exact Hrun|exact Hnode|exact Hkey|].
  apply Hpanic. discriminate.
Defined.
End BrokenRuns.
